(** * AudioPreprocessor (src/preprocessing.py): a shallow embedding

    The module wraps three calls of an external DSP library (librosa) and
    adds length normalisation ([load_audio]), a five-way dispatch
    ([apply_preprocessing]) and peak normalisation ([normalize_audio]).

    - Samples are IEEE-754 binary64 numbers, Rocq's primitive [float]:
      the arithmetic of [normalize_audio] is the arithmetic of a float64
      ndarray and of Python floats.
    - A signal is a one-dimensional ndarray, here a [list float].
      A float32 array, which [librosa.load] returns by default, holds
      values that are doubles as well; only its arithmetic, which rounds to
      24 bits, is not the one modelled here.
    - Python exceptions are values of [exn]; a call that may raise returns
      a [result].
    - librosa is not part of the repository: its three entry points are the
      fields of a [DSPBackend] record that every operation takes as a
      parameter. *)

From Stdlib Require Import ZArith QArith List String Ascii Bool Lia.
From Stdlib Require Import Permutation.
From Stdlib Require Import Floats.
Import ListNotations.

Local Open Scope string_scope.
Local Open Scope Z_scope.

(** ** Python exceptions and the error monad *)

Module Py.

(** The exception classes that occur: the built-in [ValueError],
    [OverflowError] and [TypeError], librosa's [ParameterError], and any
    other subclass of [Exception] by name ([FileNotFoundError], a
    decoder's own error, ...). *)
Inductive exn_class : Type :=
| ValueError
| OverflowError
| TypeError
| ParameterError
| OtherError (name : string).

(** An exception instance: its class and [str(e)]. *)
Record exn : Type := Exn { class_of : exn_class; str : string }.

Inductive result (A : Type) : Type :=
| Ok (a : A)
| Raise (e : exn).

Arguments Ok {A} a.
Arguments Raise {A} e.

Definition bind {A B : Type} (c : result A) (k : A -> result B) : result B :=
  match c with
  | Ok a => k a
  | Raise e => Raise e
  end.

(** [try: body / except Exception as e: handler(e)]. Every class of
    [exn_class] derives from [Exception], so the handler sees them all. *)
Definition try_except {A : Type} (body : result A) (handler : exn -> result A)
  : result A :=
  match body with
  | Ok a => Ok a
  | Raise e => handler e
  end.

Definition raised {A : Type} (c : result A) : Prop :=
  exists e, c = Raise e.

End Py.

Import Py.

Declare Scope py_scope.
Delimit Scope py_scope with py.
Notation "x <- c ;; k" := (bind c (fun x => k))
  (at level 61, c at next level, right associativity) : py_scope.
Notation "' ( x , y ) <- c ;; k" := (bind c (fun p => let '(x, y) := p in k))
  (at level 61, x name, y name, c at next level, right associativity) : py_scope.
Local Open Scope py_scope.

(** ** Python numbers *)

(** The double nearest to the decimal literal [1e-8]. *)
Definition eps : float := 0x1.5798ee2308c3ap-27%float.

(** [float(n)] for a Python int: the nearest double, ties to even;
    [OverflowError] when [n] is beyond the range of doubles. *)
Definition float_of_int (n : Z) : result float :=
  match binary_normalize prec emax n 0 false with
  | S754_infinity _ =>
      Raise (Exn OverflowError "int too large to convert to float")
  | f => Ok (SF2Prim f)
  end.

(** [n * x] with [n] an int and [x] a float: [n] is converted first. *)
Definition int_mul_float (n : Z) (x : float) : result float :=
  f <- float_of_int n ;; Ok (f * x)%float.

(** [int(x)] for a float: truncation toward zero; NaN and the infinities
    raise. *)
Definition py_int (x : float) : result Z :=
  match Prim2SF x with
  | S754_nan => Raise (Exn ValueError "cannot convert float NaN to integer")
  | S754_infinity _ =>
      Raise (Exn OverflowError "cannot convert float infinity to integer")
  | S754_zero _ => Ok 0
  | S754_finite s m e => Ok (cond_Zopp s (Z.shiftl (Zpos m) e))
  end.

Definition len {A : Type} (y : list A) : Z := Z.of_nat (List.length y).

(** [y[:t]]: a negative stop counts from the end. *)
Definition slice_to {A : Type} (y : list A) (t : Z) : list A :=
  if t <? 0 then firstn (Z.to_nat (Z.max 0 (len y + t))) y
  else firstn (Z.to_nat t) y.

(** ** numpy on one-dimensional float64 arrays *)

Definition signal : Type := list float.

(** The largest int64, the widest integer an ndarray of indices holds. *)
Definition int64_max : Z := 9223372036854775807.

(** What [np.pad] raises for a width that is no int64. *)
Definition pad_width_error : exn :=
  Exn TypeError "`pad_width` must be of integral type.".

(** [np.pad(y, (0, k), mode='constant')]: [k] zeros appended. The pair of
    widths is first made an ndarray, which must be of an integer kind: a
    width outside int64 is refused with a [TypeError]; then a negative
    width is refused. The allocation of the result is taken to succeed:
    memory is not modelled. *)
Definition np_pad_right (y : signal) (k : Z) : result signal :=
  if (k <? - (int64_max + 1)) || (int64_max <? k) then Raise pad_width_error
  else if k <? 0 then
    Raise (Exn ValueError "index can't contain negative values")
  else Ok (y ++ repeat zero (Z.to_nat k))%list.

Definition np_abs (y : signal) : signal := map abs y.

(** The element-wise [np.maximum] on doubles,
    [(a >= b || isnan(a)) ? a : b]: a NaN on either side wins. *)
Definition np_maximum (a b : float) : float :=
  if (b <=? a)%float || is_nan a then a else b.

(** [np.max(y)]: a reduction with no identity, so an empty array raises. *)
Definition np_max (y : signal) : result float :=
  match y with
  | [] =>
      Raise (Exn ValueError
        "zero-size array to reduction operation maximum which has no identity")
  | x :: xs => Ok (fold_left np_maximum xs x)
  end.

(** [y / d] with [d] a scalar, broadcast over the array. Division by zero
    does not raise on ndarrays: IEEE gives an infinity or a NaN. *)
Definition np_divide (y : signal) (d : float) : signal :=
  map (fun s => (s / d)%float) y.

(** ** The DSP backend (librosa) *)

Record DSPBackend : Type := {
  (** [librosa.load(filepath, sr=sr, duration=duration)]: the samples and
      the rate they are at. *)
  librosa_load : string -> Z -> float -> result (signal * Z);
  (** [librosa.effects.time_stretch(y, rate=rate)] *)
  librosa_time_stretch : signal -> float -> result signal;
  (** [librosa.effects.pitch_shift(y, sr=sr, n_steps=n_steps)] *)
  librosa_pitch_shift : signal -> Z -> Z -> result signal
}.

(** What librosa documents for [time_stretch]: a rate that is not positive
    is refused with [ParameterError]. *)
Definition rejects_nonpositive_rate (B : DSPBackend) : Prop :=
  forall (y : signal) (rate : float),
    (rate <=? 0)%float = true ->
    exists msg, librosa_time_stretch B y rate = Raise (Exn ParameterError msg).

(** ** class AudioPreprocessor *)

Record AudioPreprocessor : Type := { sr : Z }.

(** [__init__(self, sr=44100)] *)
Definition default_sr : Z := 44100.
Definition init (sr : Z) : AudioPreprocessor := {| sr := sr |}.

Definition default_duration : float := 2%float.
Definition default_time_stretch_rate : float := 1%float.
Definition default_pitch_shift_steps : Z := 0.

(** Every method takes the backend [B] and the instance [self]. *)

(** [int(self.sr * duration)] *)
Definition target_length (self : AudioPreprocessor) (duration : float)
  : result Z :=
  p <- int_mul_float (sr self) duration ;; py_int p.

Definition load_audio (B : DSPBackend) (self : AudioPreprocessor)
    (filepath : string) (duration : float) : result signal :=
  try_except
    ('(y, _) <- librosa_load B filepath (sr self) duration ;;
     target <- target_length self duration ;;
     if len y <? target then np_pad_right y (target - len y)
     else Ok (slice_to y target))
    (fun e => Raise (Exn ValueError ("Error loading audio: " ++ str e))).


Definition time_stretch (B : DSPBackend) (self : AudioPreprocessor)
    (y : signal) (rate : float) : result signal :=
  librosa_time_stretch B y rate.

Definition pitch_shift (B : DSPBackend) (self : AudioPreprocessor)
    (y : signal) (n_steps : Z) : result signal :=
  librosa_pitch_shift B y (sr self) n_steps.

Definition apply_preprocessing (B : DSPBackend) (self : AudioPreprocessor)
    (y : signal) (technique : string)
    (time_stretch_rate : float) (pitch_shift_steps : Z) : result signal :=
  if (technique =? "none")%string then Ok y
  else if (technique =? "time_stretch")%string then
    time_stretch B self y time_stretch_rate
  else if (technique =? "pitch_shift")%string then
    pitch_shift B self y pitch_shift_steps
  else if (technique =? "pitch_then_time")%string then
    y' <- pitch_shift B self y pitch_shift_steps ;;
    time_stretch B self y' time_stretch_rate
  else if (technique =? "time_then_pitch")%string then
    y' <- time_stretch B self y time_stretch_rate ;;
    pitch_shift B self y' pitch_shift_steps
  else Raise (Exn ValueError ("Unknown technique: " ++ technique)).

(** [normalize_audio] reads neither the backend nor [self.sr]. *)
Definition normalize_audio (y : signal) : result signal :=
  peak <- np_max (np_abs y) ;;
  Ok (np_divide y (peak + eps)%float).

(** ** Vocabulary of the specification *)

(** The five literals of the dispatch. *)
Definition known_techniques : list string :=
  ["none"; "time_stretch"; "pitch_shift"; "pitch_then_time"; "time_then_pitch"].

(** The specification's error kinds, as the code raises them. A load error
    is the [ValueError] built by [load_audio]'s handler; an unknown
    technique is the [ValueError] of the dispatch's last branch. Both are
    of the same Python class and differ by their message. *)
Definition load_error (cause : exn) : exn :=
  Exn ValueError ("Error loading audio: " ++ str cause).


Definition unknown_technique_error (technique : string) : exn :=
  Exn ValueError ("Unknown technique: " ++ technique).


(** "Dividing every sample by [peak + 1e-8]". *)
Definition divided_by_peak (peak : float) (y : signal) : signal :=
  map (fun s => (s / (peak + eps))%float) y.

(** "[peak] is the maximum over all samples of |sample|": it is the
    magnitude of one sample and no magnitude exceeds it. *)
Definition is_peak (peak : float) (y : signal) : Prop :=
  In peak (map abs y) /\ forall s, In s y -> (abs s <=? peak)%float = true.

Definition all_finite (y : signal) : Prop :=
  Forall (fun s => is_finite s = true) y.

Definition all_zero (y : signal) : Prop :=
  Forall (fun s => is_zero s = true) y.

(** The sign bit of a sample that is not a NaN. *)
Definition sign_bit (x : float) : bool :=
  match Prim2SF x with
  | S754_zero s | S754_infinity s | S754_finite s _ _ => s
  | S754_nan => false
  end.

(** The exact value [m * 2^e] of a finite double, as a rational. *)
Definition exact_value (x : float) : option Q :=
  match Prim2SF x with
  | S754_zero _ => Some 0%Q
  | S754_finite s m e => Some (inject_Z (cond_Zopp s (Zpos m)) * Qpower 2 e)%Q
  | _ => None
  end.

(** "[out] is [c] times [y]", sample by sample, on exact values. *)
Definition scalar_multiple (c : Q) (y out : signal) : Prop :=
  Forall2 (fun s o => exists qs qo,
             exact_value s = Some qs /\ exact_value o = Some qo
             /\ (qo == c * qs)%Q) y out.

(** The smallest positive double, [2^-1074]. *)
Definition tiny : float := 0x1p-1074%float.

(** ** Test doubles for the backend *)

(** A backend that passes signals through unchanged. It checks the rate as
    librosa does; [decoded] is what [load] finds in every file. *)
Definition passthrough_backend (decoded : result signal) : DSPBackend := {|
  librosa_load := fun _ rate _ => y <- decoded ;; Ok (y, rate);
  librosa_time_stretch := fun y rate =>
    if (rate <=? 0)%float
    then Raise (Exn ParameterError "rate must be a positive number")
    else Ok y;
  librosa_pitch_shift := fun y _ _ => Ok y
|}.

Definition file_not_found : exn :=
  Exn (OtherError "FileNotFoundError")
      "[Errno 2] No such file or directory: 'missing.wav'".

(** ** Reading binary64 values

    The primitive operations are specified by [Prim2SF] and the functions
    of [SpecFloat] ([SFadd], [SFdiv], ...). The definitions below name what
    the proofs read off these functions at precision 53 and [emax] 1024. *)

Module Binary64.

(** [fexp prec emax] with the constants written out: the exponent of a
    double of magnitude [2^e]. *)
Definition fexp64 (e : Z) : Z := Z.max (e - 53) (-1074).

(** A mantissa and exponent in the normal form of a double. *)
Definition canonical64 (m : positive) (e : Z) : Prop :=
  fexp64 (Zpos (digits2_pos m) + e) = e /\ e <= 971.

(** What [binary_round_aux] builds from the rounded mantissa [m2] at
    exponent [e1]: one more shift when rounding carried into a new bit. *)
Definition renormalized (sx : bool) (m2 e1 : Z) : spec_float :=
  let e3 := Z.max e1 (fexp64 (Zdigits2 m2 + e1)) in
  match m2 / 2 ^ (e3 - e1) with
  | Z0 => S754_zero sx
  | Zpos m => if e3 <=? 971 then S754_finite sx m e3 else S754_infinity sx
  | Zneg _ => S754_nan
  end.

(** [SFcompare] orders the values that are not NaN as it orders these
    triples, lexicographically. *)
Definition key (x : spec_float) : Z * Z * Z :=
  match x with
  | S754_nan => (0, 0, 0)
  | S754_zero _ => (0, 0, 0)
  | S754_infinity s => (if s then -2 else 2, 0, 0)
  | S754_finite false m e => (1, e, Zpos m)
  | S754_finite true m e => (-1, - e, Zneg m)
  end.

Definition lex_compare (a b : Z * Z * Z) : comparison :=
  let '(a1, a2, a3) := a in
  let '(b1, b2, b3) := b in
  match a1 ?= b1 with
  | Eq => match a2 ?= b2 with Eq => a3 ?= b3 | c => c end
  | c => c
  end.

Definition lex_le (a b : Z * Z * Z) : Prop :=
  let '(a1, a2, a3) := a in
  let '(b1, b2, b3) := b in
  a1 < b1 \/ (a1 = b1 /\ (a2 < b2 \/ (a2 = b2 /\ a3 <= b3))).

Definition lex_lt (a b : Z * Z * Z) : Prop :=
  let '(a1, a2, a3) := a in
  let '(b1, b2, b3) := b in
  a1 < b1 \/ (a1 = b1 /\ (a2 < b2 \/ (a2 = b2 /\ a3 < b3))).

Definition not_nan (x : spec_float) : Prop := x <> S754_nan.

Definition SF_finite (x : spec_float) : Prop :=
  match x with
  | S754_zero _ | S754_finite _ _ _ => True
  | _ => False
  end.

(** A value of sign [sign] and of magnitude at most 1: a zero, or
    [m * 2^e] with [m <= 2^(-e)]. *)
Definition le_one_shape (sign : bool) (z : spec_float) : Prop :=
  match z with
  | S754_zero s => s = sign
  | S754_finite s m e => s = sign /\ e <= -52 /\ Zpos m <= 2 ^ (- e)
  | _ => False
  end.

(** A positive double or [+inf]. *)
Definition SF_positive (d : spec_float) : Prop :=
  match d with
  | S754_finite false _ _ | S754_infinity false => True
  | _ => False
  end.

(** A positive value that is at least the double [mx * 2^ex]. *)
Definition ge_shape (mx : positive) (ex : Z) (z : spec_float) : Prop :=
  match z with
  | S754_finite false m e => ex < e \/ (ex = e /\ Zpos mx <= Zpos m)
  | S754_infinity false => True
  | _ => False
  end.

End Binary64.

(** * Properties *)

(** ** Binary64 arithmetic *)

Module Binary64Facts.

Import Binary64.

Lemma digits2_pos_size (m : positive) : digits2_pos m = Pos.size m.
Proof. induction m; simpl; congruence. Qed.

Lemma digits2_pos_bounds (m : positive) :
  2 ^ (Zpos (digits2_pos m) - 1) <= Zpos m < 2 ^ Zpos (digits2_pos m).
Proof.
  rewrite digits2_pos_size.
  pose proof (Pos.size_gt m) as Hgt. pose proof (Pos.size_le m) as Hle.
  apply Pos2Z.pos_lt_pos in Hgt. apply Pos2Z.pos_le_pos in Hle.
  rewrite Pos2Z.inj_pow in Hgt, Hle.
  replace (Zpos (Pos.size m)) with ((Zpos (Pos.size m) - 1) + 1) in Hle at 1 by lia.
  rewrite Z.pow_add_r in Hle by lia.
  change (Zpos m~0) with (2 * Zpos m) in Hle. lia.
Qed.

Lemma Zdigits2_nonneg (m : Z) : 0 <= Zdigits2 m.
Proof. destruct m; simpl; lia. Qed.

Lemma Zdigits2_bounds (m : Z) :
  0 < m -> 2 ^ (Zdigits2 m - 1) <= m < 2 ^ Zdigits2 m.
Proof.
  destruct m as [| p | p]; try lia. intros _. apply digits2_pos_bounds.
Qed.

Lemma Zdigits2_unique (m d : Z) :
  2 ^ (d - 1) <= m < 2 ^ d -> 0 < m -> Zdigits2 m = d.
Proof.
  intros [Hlo Hhi] Hm.
  destruct (Zdigits2_bounds m Hm) as [Hlo' Hhi'].
  pose proof (Zdigits2_nonneg m) as Hd.
  assert (0 < d).
  { destruct (Z_lt_le_dec 0 d) as [|Hd0]; [assumption|].
    destruct (Z.eq_dec d 0) as [->|]; [simpl in Hhi; lia|].
    rewrite (Z.pow_neg_r 2 d) in Hhi by lia. lia. }
  assert (Zdigits2 m - 1 < d).
  { apply (Z.pow_lt_mono_r_iff 2); lia. }
  assert (d - 1 < Zdigits2 m).
  { apply (Z.pow_lt_mono_r_iff 2); lia. }
  lia.
Qed.

Lemma Zdigits2_le_pow (m k : Z) :
  0 <= k -> 0 <= m < 2 ^ k -> Zdigits2 m <= k.
Proof.
  intros Hk [Hm Hlt].
  destruct (Z.eq_dec m 0) as [->|Hne]; [simpl; lia|].
  destruct (Zdigits2_bounds m ltac:(lia)) as [Hlo _].
  assert (Zdigits2 m - 1 < k) by (apply (Z.pow_lt_mono_r_iff 2); lia).
  lia.
Qed.

Lemma Zdigits2_mono (m n : Z) : 0 <= m <= n -> Zdigits2 m <= Zdigits2 n.
Proof.
  intros [Hm Hmn].
  destruct (Z.eq_dec n 0) as [->|Hn].
  - replace m with 0 by lia. lia.
  - apply Zdigits2_le_pow; [apply Zdigits2_nonneg|].
    destruct (Zdigits2_bounds n ltac:(lia)). lia.
Qed.

Lemma Zdigits2_mul_pow (m k : Z) :
  0 < m -> 0 <= k -> Zdigits2 (m * 2 ^ k) = Zdigits2 m + k.
Proof.
  intros Hm Hk. destruct (Zdigits2_bounds m Hm) as [Hlo Hhi].
  pose proof (Zdigits2_nonneg m).
  assert (0 < Zdigits2 m).
  { destruct (Z.eq_dec (Zdigits2 m) 0) as [E|]; [|lia].
    rewrite E in Hhi. simpl in Hhi. lia. }
  assert (0 < 2 ^ k) by (apply Z.pow_pos_nonneg; lia).
  apply Zdigits2_unique; [|nia].
  replace (Zdigits2 m + k - 1) with ((Zdigits2 m - 1) + k) by lia.
  rewrite !Z.pow_add_r by lia. nia.
Qed.

Lemma shr_1_m (mrs : shr_record) :
  0 <= shr_m mrs -> shr_m (shr_1 mrs) = shr_m mrs / 2.
Proof.
  destruct mrs as [m r s]. simpl. intros Hm.
  destruct m as [| [p | p |] | p]; try lia; simpl shr_m.
  - reflexivity.
  - rewrite Pos2Z.inj_xI. apply Z.div_unique with (r := 1); lia.
  - rewrite Pos2Z.inj_xO. apply Z.div_unique with (r := 0); lia.
  - reflexivity.
Qed.

Lemma pow2_xI (p : positive) : 2 ^ Zpos p~1 = 2 * 2 ^ Zpos p * 2 ^ Zpos p.
Proof.
  rewrite (Pos2Z.inj_xI p).
  replace (2 * Zpos p + 1) with (1 + Zpos p + Zpos p) by lia.
  do 2 rewrite Z.pow_add_r by lia. reflexivity.
Qed.

Lemma pow2_xO (p : positive) : 2 ^ Zpos p~0 = 2 ^ Zpos p * 2 ^ Zpos p.
Proof.
  rewrite (Pos2Z.inj_xO p). apply Z.pow_twice_r.
Qed.

Lemma iter_shr_1_m (p : positive) :
  forall mrs, 0 <= shr_m mrs ->
    shr_m (iter_pos shr_1 p mrs) = shr_m mrs / 2 ^ Zpos p.
Proof.
  assert (Hpos : forall q, 0 < 2 ^ Zpos q) by (intros; apply Z.pow_pos_nonneg; lia).
  assert (Hnn : forall a b, 0 <= a -> 0 < b -> 0 <= a / b)
    by (intros; apply Z.div_pos; lia).
  induction p as [p IH | p IH |]; intros mrs Hm; simpl iter_pos.
  - assert (H1 : 0 <= shr_m (shr_1 mrs)) by (rewrite shr_1_m by lia; apply Hnn; lia).
    assert (H2 : 0 <= shr_m (iter_pos shr_1 p (shr_1 mrs)))
      by (rewrite IH by lia; apply Hnn; [lia | apply Hpos]).
    rewrite IH by lia. rewrite IH by lia. rewrite shr_1_m by lia.
    rewrite pow2_xI.
    rewrite !Z.div_div by (try apply Hpos; lia). f_equal. lia.
  - assert (H2 : 0 <= shr_m (iter_pos shr_1 p mrs))
      by (rewrite IH by lia; apply Hnn; [lia | apply Hpos]).
    rewrite IH by lia. rewrite IH by lia. rewrite pow2_xO.
    rewrite !Z.div_div by (try apply Hpos; lia). reflexivity.
  - rewrite shr_1_m by lia. reflexivity.
Qed.

Lemma fexp_64 (e : Z) : fexp prec emax e = fexp64 e.
Proof. reflexivity. Qed.

Lemma shr_record_of_loc_m (m : Z) (l : location) : shr_m (shr_record_of_loc m l) = m.
Proof. destruct l as [|[]]; reflexivity. Qed.

Lemma shr_fexp_m (m e : Z) (l : location) :
  0 <= m ->
  let e' := Z.max e (fexp64 (Zdigits2 m + e)) in
  shr_m (fst (shr_fexp prec emax m e l)) = m / 2 ^ (e' - e)
  /\ snd (shr_fexp prec emax m e l) = e'.
Proof.
  intros Hm e'. unfold shr_fexp, shr. rewrite fexp_64. subst e'.
  set (f := fexp64 (Zdigits2 m + e)).
  destruct (f - e) as [| n | n] eqn:En; simpl fst; simpl snd.
  - rewrite shr_record_of_loc_m. replace (Z.max e f - e) with 0 by lia.
    rewrite Z.div_1_r. split; [reflexivity | lia].
  - rewrite iter_shr_1_m by (rewrite shr_record_of_loc_m; lia).
    rewrite shr_record_of_loc_m.
    replace (Z.max e f - e) with (Zpos n) by lia. split; [reflexivity | lia].
  - rewrite shr_record_of_loc_m. replace (Z.max e f - e) with 0 by lia.
    rewrite Z.div_1_r. split; [reflexivity | lia].
Qed.

Lemma round_nearest_even_bounds (m : Z) (l : location) :
  m <= round_nearest_even m l <= m + 1.
Proof.
  destruct l as [|[]]; simpl; try lia. destruct (Z.even m); lia.
Qed.

Lemma binary_round_aux_shape (sx : bool) (mx ex : Z) (lx : location) :
  0 <= mx ->
  let e1 := Z.max ex (fexp64 (Zdigits2 mx + ex)) in
  let m1 := mx / 2 ^ (e1 - ex) in
  exists m2, m1 <= m2 <= m1 + 1 /\
    binary_round_aux prec emax sx mx ex lx = renormalized sx m2 e1.
Proof.
  intros Hmx e1 m1. unfold binary_round_aux.
  destruct (shr_fexp_m mx ex lx Hmx) as [Hm He].
  destruct (shr_fexp prec emax mx ex lx) as [mrs' e'] eqn:E1.
  simpl fst in Hm. simpl snd in He. fold e1 in He. fold e1 in Hm. fold m1 in Hm.
  set (m2 := round_nearest_even (shr_m mrs') (loc_of_shr_record mrs')).
  assert (Hm1 : 0 <= m1).
  { apply Z.div_pos; [lia | apply Z.pow_pos_nonneg; lia]. }
  assert (Hb : m1 <= m2 <= m1 + 1).
  { unfold m2. rewrite <- Hm. apply round_nearest_even_bounds. }
  exists m2. split; [exact Hb |].
  destruct (shr_fexp_m m2 e' loc_Exact ltac:(lia)) as [Hm' He'].
  destruct (shr_fexp prec emax m2 e' loc_Exact) as [mrs'' e''] eqn:E2.
  simpl fst in Hm'. simpl snd in He'. subst e'.
  unfold renormalized. rewrite Hm', He'. reflexivity.
Qed.


Lemma SFcompare_key (x y : spec_float) :
  not_nan x -> not_nan y ->
  SFcompare x y = Some (lex_compare (key x) (key y)).
Proof.
  unfold not_nan.
  destruct x as [sx | sx | | sx mx ex], y as [sy | sy | | sy my ey];
    intros Hx Hy; try congruence;
    try (destruct sx; reflexivity);
    try (destruct sy; reflexivity);
    try (destruct sx, sy; reflexivity).
  all: destruct sx, sy; try reflexivity; simpl.
  rewrite Z.compare_opp. rewrite (Z.compare_antisym ex ey).
  destruct (ex ?= ey); simpl; try reflexivity.
Qed.

Lemma lex_compare_le (a b : Z * Z * Z) :
  match lex_compare a b with Lt | Eq => true | Gt => false end = true
  <-> lex_le a b.
Proof.
  destruct a as [[a1 a2] a3], b as [[b1 b2] b3]. unfold lex_compare, lex_le.
  destruct (Z.compare_spec a1 b1); destruct (Z.compare_spec a2 b2);
    destruct (Z.compare_spec a3 b3); split; intros; try lia; try reflexivity;
    try discriminate.
Qed.

Lemma lex_compare_lt (a b : Z * Z * Z) :
  match lex_compare a b with Lt => true | _ => false end = true
  <-> lex_lt a b.
Proof.
  destruct a as [[a1 a2] a3], b as [[b1 b2] b3]. unfold lex_compare, lex_lt.
  destruct (Z.compare_spec a1 b1); destruct (Z.compare_spec a2 b2);
    destruct (Z.compare_spec a3 b3); split; intros; try lia; try reflexivity;
    try discriminate.
Qed.

Lemma SFleb_key (x y : spec_float) :
  SFleb x y = true <-> not_nan x /\ not_nan y /\ lex_le (key x) (key y).
Proof.
  split.
  - intros H.
    assert (Hx : not_nan x) by (intros ->; discriminate H).
    assert (Hy : not_nan y) by (intros ->; destruct x; discriminate H).
    split; [exact Hx | split; [exact Hy |]].
    unfold SFleb in H. rewrite (SFcompare_key x y Hx Hy) in H.
    apply lex_compare_le. destruct (lex_compare (key x) (key y)); easy.
  - intros (Hx & Hy & H). unfold SFleb. rewrite (SFcompare_key x y Hx Hy).
    apply lex_compare_le in H. destruct (lex_compare (key x) (key y)); easy.
Qed.

Lemma SFltb_key (x y : spec_float) :
  SFltb x y = true <-> not_nan x /\ not_nan y /\ lex_lt (key x) (key y).
Proof.
  split.
  - intros H.
    assert (Hx : not_nan x) by (intros ->; discriminate H).
    assert (Hy : not_nan y) by (intros ->; destruct x; discriminate H).
    split; [exact Hx | split; [exact Hy |]].
    unfold SFltb in H. rewrite (SFcompare_key x y Hx Hy) in H.
    apply lex_compare_lt. destruct (lex_compare (key x) (key y)); easy.
  - intros (Hx & Hy & H). unfold SFltb. rewrite (SFcompare_key x y Hx Hy).
    apply lex_compare_lt in H. destruct (lex_compare (key x) (key y)); easy.
Qed.


Lemma pow2_pos (k : Z) : 0 <= k -> 0 < 2 ^ k.
Proof. intros. apply Z.pow_pos_nonneg; lia. Qed.

Lemma pow2_sum (a b : Z) : 0 <= a -> 0 <= b -> 2 ^ (a + b) = 2 ^ a * 2 ^ b.
Proof. intros. apply Z.pow_add_r; lia. Qed.

Lemma div_pow2_le (m a b : Z) :
  0 <= b <= a -> 0 <= m <= 2 ^ a -> 0 <= m / 2 ^ b <= 2 ^ (a - b).
Proof.
  intros Hab Hm. pose proof (pow2_pos b ltac:(lia)) as Hb.
  split; [apply Z.div_pos; lia |].
  replace a with ((a - b) + b) in Hm by lia.
  rewrite pow2_sum in Hm by lia.
  apply Z.div_le_upper_bound; [lia | nia].
Qed.

Lemma div_pow2_pos (m k : Z) :
  0 < m -> 0 <= k <= Zdigits2 m - 1 -> 0 < m / 2 ^ k.
Proof.
  intros Hm Hk. destruct (Zdigits2_bounds m Hm) as [Hlo _].
  pose proof (pow2_pos k ltac:(lia)) as Hp.
  assert (2 ^ k <= 2 ^ (Zdigits2 m - 1)) by (apply Z.pow_le_mono_r; lia).
  apply Z.div_str_pos. lia.
Qed.

Lemma renormalized_le_one (sx : bool) (m2 e1 : Z) :
  e1 <= -53 -> 0 <= m2 <= 2 ^ (- e1) ->
  match renormalized sx m2 e1 with
  | S754_zero s => s = sx
  | S754_finite s m e => s = sx /\ e <= -52 /\ Zpos m <= 2 ^ (- e)
  | _ => False
  end.
Proof.
  intros He1 Hm2. unfold renormalized.
  set (e3 := Z.max e1 (fexp64 (Zdigits2 m2 + e1))).
  assert (Hd : Zdigits2 m2 <= - e1 + 1).
  { apply Zdigits2_le_pow; [lia |].
    rewrite pow2_sum by lia. pose proof (pow2_pos (- e1) ltac:(lia)).
    change (2 ^ 1) with 2. lia. }
  assert (He3 : e1 <= e3 <= -52) by (unfold e3, fexp64; lia).
  destruct (div_pow2_le m2 (- e1) (e3 - e1) ltac:(lia) Hm2) as [Hlo Hhi].
  replace (- e1 - (e3 - e1)) with (- e3) in Hhi by lia.
  destruct (m2 / 2 ^ (e3 - e1)) as [| m | m]; [reflexivity | | lia].
  replace (e3 <=? 971) with true by (symmetry; apply Z.leb_le; lia).
  repeat split; lia.
Qed.

Lemma bounded_canonical64 (m : positive) (e : Z) :
  bounded prec emax m e = true <-> canonical64 m e.
Proof.
  unfold bounded, canonical_mantissa, canonical64. rewrite fexp_64.
  rewrite andb_true_iff, Z.eqb_eq, Z.leb_le. reflexivity.
Qed.

Lemma canonical64_digits (m : positive) (e : Z) :
  canonical64 m e ->
  -1074 <= e /\ Zpos (digits2_pos m) <= 53
  /\ (-1074 < e -> Zpos (digits2_pos m) = 53).
Proof. unfold canonical64, fexp64. lia. Qed.

Lemma SFdiv_core_lt (mx my : positive) (ex ey : Z) :
  canonical64 mx ex -> canonical64 my ey ->
  ex < ey \/ (ex = ey /\ Zpos mx < Zpos my) ->
  let '(q, e', _) := SFdiv_core_binary prec emax (Zpos mx) ex (Zpos my) ey in
  e' <= -53 /\ 0 <= q < 2 ^ (- e').
Proof.
  intros Hx Hy Hlt. unfold SFdiv_core_binary. rewrite fexp_64.
  change (Zdigits2 (Zpos mx)) with (Zpos (digits2_pos mx)).
  change (Zdigits2 (Zpos my)) with (Zpos (digits2_pos my)).
  destruct (canonical64_digits mx ex Hx) as (Hex & Hdx & _).
  destruct (canonical64_digits my ey Hy) as (Hey & Hdy & Hny).
  destruct (digits2_pos_bounds mx) as [Hxlo Hxhi].
  destruct (digits2_pos_bounds my) as [Hylo Hyhi].
  set (dx := Zpos (digits2_pos mx)) in *. set (dy := Zpos (digits2_pos my)) in *.
  assert (Hmag : dx + ex <= dy + ey).
  { destruct Hlt as [Hlt | [-> Hlt]].
    - rewrite (Hny ltac:(lia)). lia.
    - pose proof (Zdigits2_mono (Zpos mx) (Zpos my) ltac:(lia)) as Hm.
      simpl in Hm. fold dx dy in Hm. lia. }
  set (e' := Z.min (fexp64 (dx + ex - (dy + ey))) (ex - ey)).
  assert (He' : e' <= -53 /\ e' <= ex - ey) by (unfold e', fexp64; lia).
  set (s := ex - ey - e').
  assert (Hs : 0 <= s) by (unfold s; lia).
  set (m' := match s with Zpos _ => Z.shiftl (Zpos mx) s | Z0 => Zpos mx | Zneg _ => 0 end).
  assert (Hm' : m' = Zpos mx * 2 ^ s).
  { unfold m'. destruct s as [| p | p] eqn:Es; [simpl; lia | | lia].
    apply Z.shiftl_mul_pow2. lia. }
  pose proof (Z_div_mod m' (Zpos my) ltac:(lia)) as Hdiv.
  destruct (Z.div_eucl m' (Zpos my)) as [q r].
  destruct Hdiv as [Hq Hr].
  split; [lia |].
  pose proof (pow2_pos s Hs) as Hps.
  assert (Hbound : m' < Zpos my * 2 ^ (- e')).
  { rewrite Hm'. destruct Hlt as [Hlt | [E Hlt]].
    - replace (- e') with ((ey - ex) + s) by (unfold s; lia).
      rewrite pow2_sum by lia.
      assert (2 ^ 1 <= 2 ^ (ey - ex)) by (apply Z.pow_le_mono_r; lia).
      assert (Zpos mx < 2 ^ 53).
      { eapply Z.lt_le_trans; [exact Hxhi | apply Z.pow_le_mono_r; lia]. }
      rewrite (Hny ltac:(lia)) in Hylo.
      change (2 ^ (53 - 1)) with 4503599627370496 in Hylo.
      change (2 ^ 53) with 9007199254740992 in *. change (2 ^ 1) with 2 in *.
      assert (Zpos my * 2 <= Zpos my * 2 ^ (ey - ex))
        by (apply Z.mul_le_mono_nonneg_l; lia).
      rewrite Z.mul_assoc. apply Z.mul_lt_mono_pos_r; lia.
    - replace (- e') with s by (unfold s; lia).
      apply Z.mul_lt_mono_pos_r; lia. }
  assert (0 <= q) by nia.
  assert (q < 2 ^ (- e')).
  { pose proof (pow2_pos (- e') ltac:(lia)). nia. }
  lia.
Qed.

Lemma SFdiv_lt_shape (sx sy : bool) (mx my : positive) (ex ey : Z) :
  canonical64 mx ex -> canonical64 my ey ->
  ex < ey \/ (ex = ey /\ Zpos mx < Zpos my) ->
  le_one_shape (xorb sx sy)
    (SFdiv prec emax (S754_finite sx mx ex) (S754_finite sy my ey)).
Proof.
  intros Hx Hy Hlt. unfold SFdiv.
  pose proof (SFdiv_core_lt mx my ex ey Hx Hy Hlt) as Hcore.
  destruct (SFdiv_core_binary prec emax (Zpos mx) ex (Zpos my) ey)
    as [[q e'] l].
  destruct Hcore as (He' & Hq0 & Hq).
  destruct (binary_round_aux_shape (xorb sx sy) q e' l Hq0) as (m2 & Hb & ->).
  set (e1 := Z.max e' (fexp64 (Zdigits2 q + e'))) in *.
  assert (Hd : Zdigits2 q <= - e') by (apply Zdigits2_le_pow; lia).
  assert (He1 : e' <= e1 <= -53) by (unfold e1, fexp64; lia).
  assert (Hm1 : 0 <= q / 2 ^ (e1 - e') < 2 ^ (- e1)).
  { pose proof (pow2_pos (e1 - e') ltac:(lia)).
    split; [apply Z.div_pos; lia |].
    apply Z.div_lt_upper_bound; [lia |].
    rewrite <- pow2_sum by lia.
    replace (e1 - e' + - e1) with (- e') by lia. exact Hq. }
  apply renormalized_le_one; lia.
Qed.

Lemma SFdiv_same (sx sy : bool) (m : positive) (e : Z) :
  SFdiv prec emax (S754_finite sx m e) (S754_finite sy m e)
  = S754_finite (xorb sx sy) 4503599627370496 (-52).
Proof.
  unfold SFdiv, SFdiv_core_binary.
  replace (Zdigits2 (Zpos m) + e - (Zdigits2 (Zpos m) + e)) with 0 by lia.
  replace (e - e) with 0 by lia.
  change (Z.min (fexp prec emax 0) 0) with (-53).
  change (0 - -53) with 53.
  cbv iota.
  pose proof (Z_div_mod (Z.shiftl (Zpos m) 53) (Zpos m) ltac:(lia)) as Hdiv.
  rewrite Z.shiftl_mul_pow2 in Hdiv by lia.
  rewrite Z.shiftl_mul_pow2 by lia.
  destruct (Z.div_eucl (Zpos m * 2 ^ 53) (Zpos m)) as [q r].
  destruct Hdiv as [Hq Hr].
  assert (Eq : q = 2 ^ 53) by nia.
  assert (Er : r = 0) by nia.
  subst q r.
  replace (new_location (Zpos m) 0) with loc_Exact
    by (unfold new_location; destruct (Z.even (Zpos m)); reflexivity).
  reflexivity.
Qed.


Lemma iter_xO_value (d m : positive) :
  Zpos (Pos.iter xO m d) = Zpos m * 2 ^ Zpos d.
Proof.
  induction d as [| d IH] using Pos.peano_ind.
  - simpl. lia.
  - rewrite Pos.iter_succ, Pos2Z.inj_xO, IH, Pos2Z.inj_succ, Z.pow_succ_r; lia.
Qed.

Lemma shl_align_spec (mx : positive) (ex ex' : Z) :
  Zpos (fst (shl_align mx ex ex')) = Zpos mx * 2 ^ (ex - Z.min ex ex')
  /\ snd (shl_align mx ex ex') = Z.min ex ex'.
Proof.
  unfold shl_align. destruct (ex' - ex) as [| d | d] eqn:E; simpl fst; simpl snd.
  - replace (ex - Z.min ex ex') with 0 by lia. simpl. lia.
  - replace (ex - Z.min ex ex') with 0 by lia. simpl. lia.
  - rewrite iter_xO_value. replace (ex - Z.min ex ex') with (Zpos d) by lia. lia.
Qed.

Lemma binary_round_ge (mx ps : positive) (ex ez : Z) :
  canonical64 mx ex -> ez <= ex ->
  Zpos mx * 2 ^ (ex - ez) <= Zpos ps ->
  ge_shape mx ex (binary_round prec emax false ps ez).
Proof.
  intros Hx Hez Hsum. unfold binary_round. rewrite fexp_64.
  destruct (canonical64_digits mx ex Hx) as (Hex & Hdx & _).
  destruct Hx as [Hcx _]. unfold fexp64 in Hcx.
  destruct (digits2_pos_bounds mx) as [Hxlo Hxhi].
  set (dx := Zpos (digits2_pos mx)) in *.
  assert (Hdx1 : 1 <= dx) by (unfold dx; lia).
  set (D := Zpos (digits2_pos ps) + ez).
  assert (HD : dx + ex <= D).
  { unfold D. pose proof (Zdigits2_mono (Zpos mx * 2 ^ (ex - ez)) (Zpos ps)) as Hm.
    rewrite Zdigits2_mul_pow in Hm by lia.
    pose proof (pow2_pos (ex - ez) ltac:(lia)).
    specialize (Hm ltac:(nia)).
    change (Zdigits2 (Zpos mx)) with dx in Hm.
    change (Zdigits2 (Zpos ps)) with (Zpos (digits2_pos ps)) in Hm. lia. }
  set (f := fexp64 D).
  assert (Hf : ex <= f) by (unfold f, fexp64; lia).
  destruct (shl_align_spec ps ez f) as [Hmz Hez'].
  destruct (shl_align ps ez f) as [mz ez'].
  simpl fst in Hmz. simpl snd in Hez'.
  assert (Hdz : Zdigits2 (Zpos mz) + ez' = D).
  { rewrite Hmz, Zdigits2_mul_pow by lia. unfold D.
    change (Zdigits2 (Zpos ps)) with (Zpos (digits2_pos ps)). lia. }
  pose proof (binary_round_aux_shape false (Zpos mz) ez' loc_Exact ltac:(lia))
    as Hshape.
  cbv zeta in Hshape. rewrite Hdz in Hshape. fold f in Hshape.
  replace (Z.max ez' f) with f in Hshape by lia.
  destruct Hshape as (m2 & Hb & ->).
  set (m1 := Zpos mz / 2 ^ (f - ez')) in *.
  assert (Hk : 0 <= f - ez' <= Zdigits2 (Zpos mz) - 1)
    by (unfold f, fexp64 in *; lia).
  assert (Hm1 : 0 < m1) by (apply div_pow2_pos; lia).
  assert (Hm1x : f = ex -> Zpos mx <= m1).
  { intros E. unfold m1. rewrite E.
    pose proof (pow2_pos (ex - ez') ltac:(lia)).
    apply Z.div_le_lower_bound; [lia |].
    rewrite Hmz.
    replace (ex - ez') with ((ex - ez) + (ez - ez')) by lia.
    rewrite pow2_sum by lia.
    replace (ez - Z.min ez f) with (ez - ez') by lia.
    pose proof (pow2_pos (ez - ez') ltac:(lia)). nia. }
  unfold renormalized.
  set (e3 := Z.max f (fexp64 (Zdigits2 m2 + f))).
  assert (Hk3 : 0 <= e3 - f <= Zdigits2 m2 - 1).
  { assert (1 <= Zdigits2 m2).
    { pose proof (Zdigits2_mono 1 m2 ltac:(lia)) as H1. simpl in H1. lia. }
    unfold e3, f, fexp64 in *. lia. }
  pose proof (div_pow2_pos m2 (e3 - f) ltac:(lia) Hk3) as Hm3.
  assert (Hm3x : e3 = ex -> Zpos mx <= m2 / 2 ^ (e3 - f)).
  { intros E. assert (Ef : f = ex) by lia.
    replace (e3 - f) with 0 by lia. rewrite Z.div_1_r.
    specialize (Hm1x Ef). lia. }
  destruct (m2 / 2 ^ (e3 - f)) as [| m3 | m3]; try lia.
  destruct (e3 <=? 971); simpl; [| exact I].
  assert (ex <= e3) by (unfold e3; lia).
  destruct (Z.eq_dec e3 ex) as [E | NE]; [right | left]; lia.
Qed.

Lemma SFadd_pos_ge (mx my : positive) (ex ey : Z) :
  canonical64 mx ex ->
  ge_shape mx ex
    (SFadd prec emax (S754_finite false mx ex) (S754_finite false my ey)).
Proof.
  intros Hx. unfold SFadd, cond_Zopp.
  destruct (shl_align_spec mx ex (Z.min ex ey)) as [Hm1 _].
  destruct (shl_align_spec my ey (Z.min ex ey)) as [Hm2 _].
  set (ax := fst (shl_align mx ex (Z.min ex ey))) in *.
  set (ay := fst (shl_align my ey (Z.min ex ey))) in *.
  change (Zpos ax + Zpos ay) with (Zpos (ax + ay)). unfold binary_normalize.
  apply binary_round_ge; [exact Hx | lia |].
  rewrite Pos2Z.inj_add, Hm1.
  replace (Z.min ex (Z.min ex ey)) with (Z.min ex ey) by lia. lia.
Qed.


Lemma SFcompare_refl (x : spec_float) : x <> S754_nan -> SFcompare x x = Some Eq.
Proof.
  intros Hx. rewrite SFcompare_key by assumption.
  destruct (key x) as [[a b] c]. unfold lex_compare. rewrite !Z.compare_refl.
  reflexivity.
Qed.

Lemma is_nan_SF (x : float) : is_nan x = true <-> Prim2SF x = S754_nan.
Proof.
  unfold is_nan. rewrite eqb_spec. unfold SFeqb. split.
  - intros H. destruct (Prim2SF x) eqn:E; try reflexivity;
      rewrite SFcompare_refl in H by discriminate; discriminate H.
  - intros ->. reflexivity.
Qed.

Lemma is_nan_false_SF (x : float) : is_nan x = false <-> Prim2SF x <> S754_nan.
Proof.
  rewrite <- is_nan_SF. destruct (is_nan x); split; congruence.
Qed.

Lemma is_infinity_SF (x : float) :
  is_infinity x = true <-> exists s, Prim2SF x = S754_infinity s.
Proof.
  unfold is_infinity. rewrite eqb_spec, abs_spec.
  change (Prim2SF infinity) with (S754_infinity false).
  destruct (Prim2SF x) as [s | s | | s m e]; simpl; split;
    try discriminate; try (intros [? H]; discriminate H); eauto.
Qed.

Lemma is_finite_SF (x : float) : is_finite x = true <-> SF_finite (Prim2SF x).
Proof.
  unfold is_finite. rewrite negb_true_iff, orb_false_iff.
  split.
  - intros [Hn Hi]. apply is_nan_false_SF in Hn.
    destruct (Prim2SF x) as [s | s | | s m e] eqn:E; simpl; try exact I;
      try congruence.
    assert (is_infinity x = true) by (apply is_infinity_SF; eauto). congruence.
  - intros H. split.
    + apply is_nan_false_SF. intros E. rewrite E in H. exact H.
    + destruct (is_infinity x) eqn:Ei; [| reflexivity].
      apply is_infinity_SF in Ei. destruct Ei as [s E]. rewrite E in H.
      destruct H.
Qed.

Lemma is_zero_SF (x : float) :
  is_zero x = true <-> exists s, Prim2SF x = S754_zero s.
Proof.
  unfold is_zero. rewrite eqb_spec.
  change (Prim2SF zero) with (S754_zero false).
  destruct (Prim2SF x) as [s | s | | s m e]; simpl; split;
    try discriminate; try (intros [? H]; discriminate H); eauto.
  - destruct s; discriminate.
  - destruct s; discriminate.
Qed.

Lemma Prim2SF_canonical (x : float) (s : bool) (m : positive) (e : Z) :
  Prim2SF x = S754_finite s m e -> canonical64 m e.
Proof.
  intros E. pose proof (Prim2SF_valid x) as Hv. rewrite E in Hv.
  apply bounded_canonical64. exact Hv.
Qed.

(** Order on floats. *)
Lemma leb_key (x y : float) :
  (x <=? y)%float = true
  <-> not_nan (Prim2SF x) /\ not_nan (Prim2SF y)
      /\ lex_le (key (Prim2SF x)) (key (Prim2SF y)).
Proof. rewrite leb_spec. apply SFleb_key. Qed.

Lemma ltb_key (x y : float) :
  (x <? y)%float = true
  <-> not_nan (Prim2SF x) /\ not_nan (Prim2SF y)
      /\ lex_lt (key (Prim2SF x)) (key (Prim2SF y)).
Proof. rewrite ltb_spec. apply SFltb_key. Qed.

Ltac lex_solve :=
  repeat match goal with
         | |- context [key ?x] => destruct (key x) as [[? ?] ?]
         | H : context [key ?x] |- _ => destruct (key x) as [[? ?] ?]
         end;
  unfold lex_le, lex_lt in *; lia.

Lemma leb_refl (x : float) : is_nan x = false -> (x <=? x)%float = true.
Proof.
  intros H. apply is_nan_false_SF in H. apply leb_key.
  repeat split; try assumption. lex_solve.
Qed.

Lemma leb_trans (x y z : float) :
  (x <=? y)%float = true -> (y <=? z)%float = true -> (x <=? z)%float = true.
Proof.
  rewrite !leb_key. intros (Hx & Hy & H1) (_ & Hz & H2).
  repeat split; try assumption. lex_solve.
Qed.

Lemma not_leb_leb (x y : float) :
  is_nan x = false -> is_nan y = false ->
  (y <=? x)%float = false -> (x <=? y)%float = true.
Proof.
  intros Hx Hy H. apply is_nan_false_SF in Hx, Hy. apply leb_key.
  repeat split; try assumption.
  assert (N : ~ lex_le (key (Prim2SF y)) (key (Prim2SF x))).
  { intros L. assert ((y <=? x)%float = true) by (apply leb_key; auto).
    congruence. }
  revert N. lex_solve.
Qed.


Lemma Prim2SF_eps : Prim2SF eps = S754_finite false 6044629098073146 (-79).
Proof. reflexivity. Qed.

Lemma Prim2SF_one : Prim2SF 1 = S754_finite false 4503599627370496 (-52).
Proof. reflexivity. Qed.

Lemma Zdigits2_div_pow (m k : Z) :
  0 < m -> 0 <= k < Zdigits2 m -> Zdigits2 (m / 2 ^ k) = Zdigits2 m - k.
Proof.
  intros Hm Hk. destruct (Zdigits2_bounds m Hm) as [Hlo Hhi].
  pose proof (pow2_pos k ltac:(lia)) as Hp.
  assert (Hq : 0 < m / 2 ^ k) by (apply div_pow2_pos; lia).
  apply Zdigits2_unique; [| exact Hq]. split.
  - apply Z.div_le_lower_bound; [lia |].
    rewrite <- pow2_sum by lia.
    replace (k + (Zdigits2 m - k - 1)) with (Zdigits2 m - 1) by lia. exact Hlo.
  - apply Z.div_lt_upper_bound; [lia |].
    rewrite <- pow2_sum by lia.
    replace (k + (Zdigits2 m - k)) with (Zdigits2 m) by lia. exact Hhi.
Qed.

Lemma renormalized_valid (s : bool) (m2 f D : Z) :
  f = fexp64 D -> 0 < m2 -> D <= Zdigits2 m2 + f ->
  valid_binary (renormalized s m2 f) = true.
Proof.
  intros Hf Hm2 HD. unfold renormalized.
  set (D2 := Zdigits2 m2 + f) in *.
  assert (Hd2 : 1 <= Zdigits2 m2).
  { pose proof (Zdigits2_mono 1 m2 ltac:(lia)) as H. simpl in H. lia. }
  set (e3 := Z.max f (fexp64 D2)).
  assert (He3 : e3 = fexp64 D2) by (unfold e3, fexp64 in *; lia).
  assert (Hk : 0 <= e3 - f < Zdigits2 m2) by (unfold D2, fexp64 in *; lia).
  pose proof (Zdigits2_div_pow m2 (e3 - f) Hm2 Hk) as Hd3.
  pose proof (div_pow2_pos m2 (e3 - f) Hm2 ltac:(lia)) as Hm3.
  destruct (m2 / 2 ^ (e3 - f)) as [| m3 | m3] eqn:E3; try lia.
  destruct (e3 <=? 971) eqn:Eb; [| reflexivity].
  simpl. apply bounded_canonical64. split; [| apply Z.leb_le; exact Eb].
  change (Zpos (digits2_pos m3)) with (Zdigits2 (Zpos m3)).
  rewrite Hd3. replace (Zdigits2 m2 - (e3 - f) + e3) with D2 by (unfold D2; lia).
  symmetry. exact He3.
Qed.



Lemma binary_round_valid (s : bool) (p : positive) (e : Z) :
  valid_binary (binary_round prec emax s p e) = true.
Proof.
  unfold binary_round. rewrite fexp_64.
  set (D := Zpos (digits2_pos p) + e). set (f := fexp64 D).
  destruct (shl_align_spec p e f) as [Hmz Hez'].
  destruct (shl_align p e f) as [mz ez'].
  simpl fst in Hmz. simpl snd in Hez'.
  assert (Hdz : Zdigits2 (Zpos mz) + ez' = D).
  { rewrite Hmz, Zdigits2_mul_pow by lia. unfold D.
    change (Zdigits2 (Zpos p)) with (Zpos (digits2_pos p)). lia. }
  pose proof (binary_round_aux_shape s (Zpos mz) ez' loc_Exact ltac:(lia))
    as Hshape.
  cbv zeta in Hshape. rewrite Hdz in Hshape. fold f in Hshape.
  replace (Z.max ez' f) with f in Hshape by lia.
  destruct Hshape as (m2 & Hb & ->).
  pose proof (Zdigits2_nonneg (Zpos mz)) as Hdnn.
  assert (Hm1nn : 0 <= Zpos mz / 2 ^ (f - ez')).
  { apply Z.div_pos; [lia | apply pow2_pos; lia]. }
  destruct (Z_lt_le_dec (f - ez') (Zdigits2 (Zpos mz))) as [Hlt | Hge].
  - (* some bits remain *)
    pose proof (Zdigits2_div_pow (Zpos mz) (f - ez') ltac:(lia) ltac:(lia)) as Hd1.
    pose proof (div_pow2_pos (Zpos mz) (f - ez') ltac:(lia) ltac:(lia)) as Hm1.
    apply (renormalized_valid s m2 f D eq_refl); [lia |].
    pose proof (Zdigits2_mono (Zpos mz / 2 ^ (f - ez')) m2 ltac:(lia)). lia.
  - (* every bit is shifted out *)
    assert (Hz : Zpos mz / 2 ^ (f - ez') = 0).
    { apply Z.div_small. split; [lia |].
      destruct (Zdigits2_bounds (Zpos mz) ltac:(lia)) as [_ Hhi].
      eapply Z.lt_le_trans; [exact Hhi |]. apply Z.pow_le_mono_r; lia. }
    rewrite Hz in Hb.
    assert (Ef : f = -1074) by (unfold f, fexp64 in *; lia).
    assert (Hm2 : m2 = 0 \/ m2 = 1) by lia.
    destruct Hm2 as [-> | ->]; rewrite Ef; reflexivity.
Qed.

Lemma binary_normalize_valid (n : Z) :
  valid_binary (binary_normalize prec emax n 0 false) = true.
Proof.
  destruct n; simpl; [reflexivity | apply binary_round_valid ..].
Qed.

Lemma float_of_int_spec (n : Z) (f : float) :
  float_of_int n = Ok f ->
  Prim2SF f = binary_normalize prec emax n 0 false.
Proof.
  unfold float_of_int. pose proof (binary_normalize_valid n) as Hv.
  destruct (binary_normalize prec emax n 0 false) eqn:E;
    intros H; try discriminate H;
    apply (f_equal (fun r => match r with Ok a => a | Raise _ => f end)) in H;
    cbv beta iota in H; rewrite <- H; apply Prim2SF_SF2Prim; exact Hv.
Qed.

Lemma SFmul_one_finite (s : bool) (m : positive) (e : Z) :
  canonical64 m e ->
  SFmul prec emax (S754_finite s m e) (S754_finite false 4503599627370496 (-52))
  = S754_finite s m e.
Proof.
  intros [Hc He]. unfold SFmul.
  replace (xorb s false) with s by (destruct s; reflexivity).
  unfold binary_round_aux, shr_fexp. rewrite !fexp_64.
  assert (Ed : Zdigits2 (Zpos (m * 4503599627370496)) + (e + -52)
               = Zpos (digits2_pos m) + e).
  { rewrite Pos2Z.inj_mul. change (Zpos 4503599627370496) with (2 ^ 52).
    rewrite Zdigits2_mul_pow by lia. simpl Zdigits2. lia. }
  rewrite Ed, Hc.
  replace (e - (e + -52)) with 52 by lia.
  rewrite Pos.mul_comm.
  cbn [shr shr_record_of_loc Pos.mul iter_pos shr_1 orb].
  cbn [shr_m loc_of_shr_record round_nearest_even Zdigits2].
  replace (e + -52 + 52) with e by lia.
  rewrite fexp_64, Hc. rewrite Z.sub_diag. cbn [shr shr_record_of_loc shr_m].
  change (emax - prec) with 971.
  replace (e <=? 971) with true by (symmetry; apply Z.leb_le; exact He).
  reflexivity.
Qed.

Lemma mul_one (c : float) : (c * 1)%float = c.
Proof.
  apply Prim2SF_inj. rewrite mul_spec, Prim2SF_one. unfold SF64mul.
  pose proof (Prim2SF_canonical c) as Hc.
  destruct (Prim2SF c) as [s | s | | s m e].
  - simpl. destruct s; reflexivity.
  - simpl. destruct s; reflexivity.
  - reflexivity.
  - apply SFmul_one_finite. apply (Hc s m e). reflexivity.
Qed.

End Binary64Facts.

Import Binary64 Binary64Facts.

(** ** The dispatch of [apply_preprocessing] *)

Section Dispatch.

Variable B : DSPBackend.
Variable self : AudioPreprocessor.

(** C8. With technique ['none'], [apply_preprocessing] returns its input
    signal unchanged, whatever the rate and the number of steps. *)
Theorem apply_none_is_identity (y : signal) (rate : float) (steps : Z) :
  apply_preprocessing B self y "none" rate steps = Ok y.
Proof. reflexivity. Qed.

(** C2. ['pitch_then_time'] is [pitch_shift] followed by [time_stretch] on
    its result, ['time_then_pitch'] is [time_stretch] followed by
    [pitch_shift] on its result: the same two operations, in opposite
    orders. An exception of the first operation ends the cascade. *)
Theorem cascades_compose (y : signal) (rate : float) (steps : Z) :
  apply_preprocessing B self y "pitch_then_time" rate steps
    = (y' <- pitch_shift B self y steps ;; time_stretch B self y' rate)
  /\ apply_preprocessing B self y "time_then_pitch" rate steps
    = (y' <- time_stretch B self y rate ;; pitch_shift B self y' steps).
Proof. split; reflexivity. Qed.

Lemma eqb_known (technique lit : string) :
  ~ In technique known_techniques -> In lit known_techniques ->
  (technique =? lit)%string = false.
Proof.
  intros Hout Hin. apply String.eqb_neq. intros ->. exact (Hout Hin).
Qed.

(** C5. A technique outside the five literals makes [apply_preprocessing]
    raise the unknown-technique error; the input is never returned. *)
Theorem unknown_technique_rejected (y : signal) (technique : string)
    (rate : float) (steps : Z) :
  ~ In technique known_techniques ->
  apply_preprocessing B self y technique rate steps
    = Raise (unknown_technique_error technique)
  /\ apply_preprocessing B self y technique rate steps <> Ok y.
Proof.
  intros Hout.
  assert (E : apply_preprocessing B self y technique rate steps
              = Raise (unknown_technique_error technique)).
  { unfold apply_preprocessing.
    rewrite !(eqb_known technique) by (assumption || (simpl; tauto)).
    reflexivity. }
  split; [exact E | rewrite E; discriminate].
Qed.

End Dispatch.

Lemma unknown_technique_rejected_witness :
  ~ In "bogus_value" known_techniques
  /\ apply_preprocessing (passthrough_backend (Ok [])) (init default_sr)
       [1%float] "bogus_value" 1 0
     = Raise (unknown_technique_error "bogus_value").
Proof.
  assert (H : ~ In "bogus_value" known_techniques).
  { simpl. intros [H | [H | [H | [H | [H | []]]]]]; discriminate H. }
  split; [exact H |].
  exact (proj1 (unknown_technique_rejected (passthrough_backend (Ok []))
                  (init default_sr) [1%float] "bogus_value" 1 0 H)).
Defined.

Lemma passthrough_rejects (decoded : result signal) :
  rejects_nonpositive_rate (passthrough_backend decoded).
Proof.
  intros y rate H. exists "rate must be a positive number".
  simpl. rewrite H. reflexivity.
Defined.

(** ** [load_audio] *)

(** *** The target length [int(self.sr * duration)] *)







(** *** Padding and trimming *)

Section LoadAudio.

Variable B : DSPBackend.
Variable self : AudioPreprocessor.
Variable filepath : string.
Variable duration : float.

Lemma load_audio_decode_error (cause : exn) :
  librosa_load B filepath (sr self) duration = Raise cause ->
  load_audio B self filepath duration = Raise (load_error cause).
Proof. intros E. unfold load_audio. rewrite E. reflexivity. Qed.

Lemma load_audio_length_error (y0 : signal) (sr0 : Z) (cause : exn) :
  librosa_load B filepath (sr self) duration = Ok (y0, sr0) ->
  target_length self duration = Raise cause ->
  load_audio B self filepath duration = Raise (load_error cause).
Proof. intros E Et. unfold load_audio. rewrite E. simpl. rewrite Et. reflexivity. Qed.

Lemma load_audio_ok (y0 : signal) (sr0 t : Z) :
  librosa_load B filepath (sr self) duration = Ok (y0, sr0) ->
  target_length self duration = Ok t ->
  t - len y0 <= int64_max ->
  load_audio B self filepath duration
  = Ok (if len y0 <? t then (y0 ++ repeat zero (Z.to_nat (t - len y0)))%list
        else slice_to y0 t).
Proof.
  intros E Et Hw. unfold load_audio. rewrite E. simpl. rewrite Et. simpl.
  destruct (len y0 <? t) eqn:Elt; [| reflexivity].
  unfold np_pad_right. apply Z.ltb_lt in Elt.
  replace (t - len y0 <? - (int64_max + 1)) with false
    by (symmetry; apply Z.ltb_ge; unfold int64_max; lia).
  replace (int64_max <? t - len y0) with false
    by (symmetry; apply Z.ltb_ge; lia).
  replace (t - len y0 <? 0) with false by (symmetry; apply Z.ltb_ge; lia).
  reflexivity.
Qed.

Lemma load_audio_pad_error (y0 : signal) (sr0 t : Z) :
  librosa_load B filepath (sr self) duration = Ok (y0, sr0) ->
  target_length self duration = Ok t ->
  int64_max < t - len y0 ->
  load_audio B self filepath duration = Raise (load_error pad_width_error).
Proof.
  intros E Et Hw. unfold load_audio. rewrite E. simpl. rewrite Et. simpl.
  assert (Hlen : 0 <= len y0) by (unfold len; lia).
  replace (len y0 <? t) with true
    by (symmetry; apply Z.ltb_lt; unfold int64_max in Hw; lia).
  unfold np_pad_right.
  replace (int64_max <? t - len y0) with true
    by (symmetry; apply Z.ltb_lt; exact Hw).
  rewrite orb_true_r. reflexivity.
Qed.


End LoadAudio.



(** *** Where load errors come from *)

Example load_audio_missing_file :
  load_audio (passthrough_backend (Raise file_not_found)) (init default_sr)
    "missing.wav" default_duration
  = Raise (Exn ValueError
      "Error loading audio: [Errno 2] No such file or directory: 'missing.wav'").
Proof. reflexivity. Qed.




Section ErrorOrigins.

Variable B : DSPBackend.
Variable self : AudioPreprocessor.



End ErrorOrigins.


(** ** [normalize_audio] *)

(** ** [np.max] over magnitudes *)

Lemma abs_not_nan (s : float) : is_nan s = false -> is_nan (abs s) = false.
Proof.
  rewrite !is_nan_false_SF, abs_spec. destruct (Prim2SF s); simpl; congruence.
Qed.

Lemma abs_nan (s : float) : is_nan s = true -> is_nan (abs s) = true.
Proof. rewrite !is_nan_SF, abs_spec. intros ->. reflexivity. Qed.

Lemma leb_nan_l (a b : float) : is_nan b = true -> (b <=? a)%float = false.
Proof.
  intros Hb. apply is_nan_SF in Hb.
  destruct (b <=? a)%float eqn:E; [| reflexivity].
  apply leb_key in E. destruct E as (N & _). congruence.
Qed.

Lemma np_maximum_nan_l (a b : float) :
  is_nan a = true -> np_maximum a b = a.
Proof.
  intros H. unfold np_maximum. rewrite H, orb_true_r. reflexivity.
Qed.

Lemma np_maximum_nan_r (a b : float) :
  is_nan b = true -> is_nan (np_maximum a b) = true.
Proof.
  intros H. unfold np_maximum. rewrite leb_nan_l by exact H.
  destruct (is_nan a) eqn:Ea; [exact Ea | exact H].
Qed.

Lemma np_maximum_upper (a b : float) :
  is_nan a = false -> is_nan b = false ->
  (np_maximum a b = a \/ np_maximum a b = b)
  /\ (a <=? np_maximum a b)%float = true
  /\ (b <=? np_maximum a b)%float = true.
Proof.
  intros Ha Hb. unfold np_maximum. rewrite Ha, orb_false_r.
  destruct (b <=? a)%float eqn:E.
  - split; [left; reflexivity |]. split; [apply leb_refl; exact Ha | exact E].
  - split; [right; reflexivity |]. split; [| apply leb_refl; exact Hb].
    apply not_leb_leb; assumption.
Qed.

Lemma fold_maximum_upper (xs : list float) :
  forall x, (forall s, In s (x :: xs) -> is_nan s = false) ->
    In (fold_left np_maximum xs x) (x :: xs)
    /\ forall s, In s (x :: xs) -> (s <=? fold_left np_maximum xs x)%float = true.
Proof.
  induction xs as [| b xs IH]; intros x Hnan.
  - simpl. split; [left; reflexivity |].
    intros s [<- | []]. apply leb_refl. apply Hnan. left. reflexivity.
  - simpl fold_left.
    assert (Hx : is_nan x = false) by (apply Hnan; left; reflexivity).
    assert (Hb : is_nan b = false) by (apply Hnan; right; left; reflexivity).
    destruct (np_maximum_upper x b Hx Hb) as (Hc & Hxa & Hba).
    assert (Hn' : forall s, In s (np_maximum x b :: xs) -> is_nan s = false).
    { intros s [<- | Hs].
      - destruct Hc as [-> | ->]; assumption.
      - apply Hnan. right. right. exact Hs. }
    destruct (IH (np_maximum x b) Hn') as [Hin Hub]. split.
    + destruct Hin as [<- | Hin].
      * destruct Hc as [-> | ->]; [left | right; left]; reflexivity.
      * right. right. exact Hin.
    + intros s [<- | [<- | Hs]].
      * eapply leb_trans; [exact Hxa |]. apply Hub. left. reflexivity.
      * eapply leb_trans; [exact Hba |]. apply Hub. left. reflexivity.
      * apply Hub. right. exact Hs.
Qed.

Lemma fold_maximum_nan (xs : list float) :
  forall x, (exists s, In s (x :: xs) /\ is_nan s = true) ->
    is_nan (fold_left np_maximum xs x) = true.
Proof.
  induction xs as [| b xs IH]; intros x (s & Hin & Hs).
  - destruct Hin as [<- | []]. exact Hs.
  - simpl fold_left. apply IH.
    destruct Hin as [<- | [<- | Hin]].
    + exists (np_maximum x b). split; [left; reflexivity |].
      rewrite np_maximum_nan_l by exact Hs. exact Hs.
    + exists (np_maximum x b). split; [left; reflexivity |].
      apply np_maximum_nan_r. exact Hs.
    + exists s. split; [right; exact Hin | exact Hs].
Qed.

Lemma np_max_abs (y : signal) :
  y <> [] ->
  exists peak, np_max (np_abs y) = Ok peak
    /\ ((forall s, In s y -> is_nan s = false) -> is_peak peak y)
    /\ ((exists s, In s y /\ is_nan s = true) -> is_nan peak = true).
Proof.
  destruct y as [| x xs]; [congruence |]. intros _.
  exists (fold_left np_maximum (map abs xs) (abs x)).
  split; [reflexivity |]. split.
  - intros Hnan.
    assert (Hn : forall a, In a (abs x :: map abs xs) -> is_nan a = false).
    { intros a Ha. change (abs x :: map abs xs) with (map abs (x :: xs)) in Ha.
      apply in_map_iff in Ha. destruct Ha as (s & <- & Hs).
      apply abs_not_nan. apply Hnan. exact Hs. }
    destruct (fold_maximum_upper (map abs xs) (abs x) Hn) as [Hin Hub].
    split; [exact Hin |].
    intros s Hs. apply Hub.
    change (abs x :: map abs xs) with (map abs (x :: xs)).
    apply in_map. exact Hs.
  - intros (s & Hs & Hn). apply fold_maximum_nan.
    exists (abs s). split; [| apply abs_nan; exact Hn].
    change (abs x :: map abs xs) with (map abs (x :: xs)).
    apply in_map. exact Hs.
Qed.

(** ** The divisor [peak + 1e-8] *)

Lemma abs_finite_shape (s : float) :
  is_finite s = true ->
  Prim2SF (abs s) = S754_zero false
  \/ exists m e, Prim2SF (abs s) = S754_finite false m e.
Proof.
  intros H. apply is_finite_SF in H. rewrite abs_spec.
  destruct (Prim2SF s) as [sg | sg | | sg m e]; simpl in *; try contradiction;
    eauto.
Qed.

Lemma divisor_shape (peak : float) :
  (Prim2SF peak = S754_zero false
   \/ exists m e, Prim2SF peak = S754_finite false m e) ->
  SF_positive (Prim2SF (peak + eps))
  /\ (peak <=? peak + eps)%float = true.
Proof.
  intros [E | (m & e & E)].
  - assert (Ed : Prim2SF (peak + eps) = Prim2SF eps).
    { rewrite add_spec, E, Prim2SF_eps. reflexivity. }
    split.
    + rewrite Ed, Prim2SF_eps. exact I.
    + rewrite leb_spec, Ed, E, Prim2SF_eps. reflexivity.
  - pose proof (Prim2SF_canonical peak false m e E) as Hc.
    pose proof (SFadd_pos_ge m 6044629098073146 e (-79) Hc) as Hge.
    assert (Ed : Prim2SF (peak + eps)
                 = SFadd prec emax (S754_finite false m e)
                     (S754_finite false 6044629098073146 (-79))).
    { rewrite add_spec, E, Prim2SF_eps. reflexivity. }
    rewrite <- Ed in Hge.
    split.
    + destruct (Prim2SF (peak + eps)) as [s | [] | | [] m' e']; simpl in *;
        try contradiction; exact I.
    + apply leb_key. rewrite E.
      destruct (Prim2SF (peak + eps)) as [s | [] | | [] m' e']; simpl in *;
        try contradiction; unfold not_nan;
        (split; [discriminate | split; [discriminate | lia]]).
Qed.

(** ** One quotient *)

Lemma quotient_shape (x d : float) :
  is_finite x = true ->
  SF_positive (Prim2SF d) ->
  (abs x <=? d)%float = true ->
  le_one_shape (sign_bit x) (Prim2SF (x / d)).
Proof.
  intros Hx Hd Hle. apply is_finite_SF in Hx.
  apply leb_key in Hle. destruct Hle as (_ & _ & Hle).
  rewrite abs_spec in Hle. unfold sign_bit. rewrite div_spec.
  pose proof (Prim2SF_canonical x) as Hcx.
  pose proof (Prim2SF_canonical d) as Hcd.
  destruct (Prim2SF x) as [sx | sx | | sx mx ex]; try contradiction;
    destruct (Prim2SF d) as [sd | [] | | [] my ey]; try contradiction;
    try (simpl; destruct sx; reflexivity).
  specialize (Hcx sx mx ex eq_refl). specialize (Hcd false my ey eq_refl).
  simpl in Hle.
  assert (Hs : xorb sx false = sx) by (destruct sx; reflexivity).
  unfold SF64div.
  destruct (Z.eq_dec ex ey) as [Ee | Ne].
  - destruct (Pos.eq_dec mx my) as [Em | Nm].
    + subst. rewrite SFdiv_same. simpl. rewrite Hs. repeat split; lia.
    + rewrite <- Hs at 1. apply SFdiv_lt_shape; try assumption.
      right. split; [exact Ee |].
      assert (Zpos mx <> Zpos my) by congruence. lia.
  - rewrite <- Hs at 1. apply SFdiv_lt_shape; try assumption. lia.
Qed.

Lemma le_one_shape_facts (sg : bool) (q : float) :
  le_one_shape sg (Prim2SF q) ->
  is_finite q = true /\ (abs q <=? 1)%float = true /\ sign_bit q = sg.
Proof.
  intros H. unfold sign_bit. rewrite is_finite_SF, leb_spec, abs_spec, Prim2SF_one.
  destruct (Prim2SF q) as [s | s | | s m e]; simpl in H; try contradiction.
  - split; [exact I |]. split; [reflexivity | exact H].
  - destruct H as (Hs & He & Hm). split; [exact I |]. split; [| exact Hs].
    apply SFleb_key. unfold not_nan. simpl.
    split; [discriminate | split; [discriminate |]].
    destruct (Z.eq_dec e (-52)) as [-> | Ne]; [| lia].
    change (2 ^ (- -52)) with 4503599627370496 in Hm. lia.
Qed.

Lemma quotient_zero (x d : float) :
  is_zero x = true -> SF_positive (Prim2SF d) -> is_zero (x / d) = true.
Proof.
  intros Hx Hd. apply is_zero_SF in Hx. destruct Hx as [s Ex].
  apply is_zero_SF. rewrite div_spec, Ex.
  destruct (Prim2SF d) as [sd | [] | | [] my ey]; try contradiction;
    simpl; eauto.
Qed.

Lemma positive_ltb (d : float) : SF_positive (Prim2SF d) -> (0 <? d)%float = true.
Proof.
  intros H. rewrite ltb_spec. change (Prim2SF 0) with (S754_zero false).
  destruct (Prim2SF d) as [sd | [] | | [] my ey]; try contradiction;
    reflexivity.
Qed.

(** ** [normalize_audio] on finite signals *)

Lemma finite_not_nan (s : float) : is_finite s = true -> is_nan s = false.
Proof.
  unfold is_finite. rewrite negb_true_iff, orb_false_iff. tauto.
Qed.

Lemma normalize_audio_finite (y : signal) :
  y <> [] -> all_finite y ->
  exists peak,
    normalize_audio y = Ok (np_divide y (peak + eps)%float)
    /\ is_peak peak y
    /\ SF_positive (Prim2SF (peak + eps))
    /\ forall s, In s y -> (abs s <=? peak + eps)%float = true.
Proof.
  intros Hne Hfin. unfold all_finite in Hfin. rewrite Forall_forall in Hfin.
  destruct (np_max_abs y Hne) as (peak & Emax & Hpeak & _).
  assert (Hp : is_peak peak y).
  { apply Hpeak. intros s Hs. apply finite_not_nan. apply Hfin. exact Hs. }
  exists peak. unfold normalize_audio. rewrite Emax. simpl.
  split; [reflexivity |]. split; [exact Hp |].
  destruct Hp as [Hin Hub].
  apply in_map_iff in Hin. destruct Hin as (s0 & <- & Hs0).
  destruct (divisor_shape (abs s0) (abs_finite_shape s0 (Hfin s0 Hs0)))
    as [Hpos Hle].
  split; [exact Hpos |].
  intros s Hs. eapply leb_trans; [apply Hub; exact Hs | exact Hle].
Qed.

Lemma quotients_bounded (y : signal) (d : float) :
  all_finite y -> SF_positive (Prim2SF d) ->
  (forall s, In s y -> (abs s <=? d)%float = true) ->
  Forall (fun q => is_finite q = true /\ (abs q <=? 1)%float = true)
         (np_divide y d)
  /\ Forall2 (fun s q => sign_bit q = sign_bit s) y (np_divide y d).
Proof.
  intros Hfin Hd. induction y as [| s y IH]; intros Hle; simpl.
  - split; constructor.
  - inversion Hfin as [| ? ? Hs Hy]; subst.
    destruct (IH Hy (fun t Ht => Hle t (or_intror Ht))) as [IH1 IH2].
    pose proof (quotient_shape s d Hs Hd (Hle s (or_introl eq_refl))) as Hq.
    apply le_one_shape_facts in Hq. destruct Hq as (Hf & Hb & Hsg).
    split; constructor; auto.
Qed.

Lemma quotients_zero (y : signal) (d : float) :
  SF_positive (Prim2SF d) -> all_zero y -> all_zero (np_divide y d).
Proof.
  intros Hd Hz. induction Hz as [| s y Hs _ IH]; simpl; constructor.
  - apply quotient_zero; assumption.
  - exact IH.
Qed.

Lemma two_samples_finite : all_finite [1%float; (-3)%float].
Proof. repeat constructor. Defined.

Lemma scalar_multiple_cross (c : Q) (s1 s2 o1 o2 : float) (a1 a2 b1 b2 : Q) :
  exact_value s1 = Some a1 -> exact_value s2 = Some a2 ->
  exact_value o1 = Some b1 -> exact_value o2 = Some b2 ->
  scalar_multiple c [s1; s2] [o1; o2] ->
  (b1 * a2 == b2 * a1)%Q.
Proof.
  intros Ea1 Ea2 Eb1 Eb2 H.
  inversion H as [| ? ? ? ? (qs1 & qo1 & Es1 & Eo1 & H1) H']; subst.
  inversion H' as [| ? ? ? ? (qs2 & qo2 & Es2 & Eo2 & H2) _]; subst.
  assert (qs1 = a1) by congruence. assert (qo1 = b1) by congruence.
  assert (qs2 = a2) by congruence. assert (qo2 = b2) by congruence.
  subst. rewrite H1, H2. ring.
Qed.

(** *** The quotient by the peak *)

(** C3, amended. For every signal that is not empty, [normalize_audio]
    returns the signal obtained by dividing every sample by
    [peak + 1e-8], where [peak] is numpy's maximum of the magnitudes: the
    greatest |sample| when no sample is a NaN, and a NaN when some sample
    is one. *)
Theorem normalize_audio_divides_by_peak (y : signal) :
  y <> [] ->
  exists peak,
    normalize_audio y = Ok (divided_by_peak peak y)
    /\ ((forall s, In s y -> is_nan s = false) -> is_peak peak y)
    /\ ((exists s, In s y /\ is_nan s = true) -> is_nan peak = true).
Proof.
  intros Hne. destruct (np_max_abs y Hne) as (peak & Emax & Hpeak & Hnan).
  exists peak. unfold normalize_audio. rewrite Emax.
  split; [reflexivity | split; assumption].
Qed.

Lemma normalize_audio_divides_by_peak_witness :
  exists peak,
    normalize_audio [1%float; (-3)%float]
      = Ok (divided_by_peak peak [1%float; (-3)%float])
    /\ ((forall s, In s [1%float; (-3)%float] -> is_nan s = false)
        -> is_peak peak [1%float; (-3)%float])
    /\ ((exists s, In s [1%float; (-3)%float] /\ is_nan s = true)
        -> is_nan peak = true).
Proof.
  apply (normalize_audio_divides_by_peak [1%float; (-3)%float]). discriminate.
Defined.

(** C3 as stated fails on the empty signal: [np.max] has nothing to
    reduce and [normalize_audio] raises instead of returning. *)
Lemma normalize_audio_empty_raises :
  normalize_audio []
  = Raise (Exn ValueError
      "zero-size array to reduction operation maximum which has no identity").
Proof. reflexivity. Qed.

(** *** No NaN, no infinity, magnitude at most one *)

(** C4, amended. For every signal that is not empty and whose samples are
    all finite, [normalize_audio] returns without raising a signal of the
    same length; the divisor is strictly positive; no sample of the result
    is a NaN or an infinity and every magnitude is at most 1.0, hence at
    most [1.0 + 1e-8]; an all-zero signal gives an all-zero signal. *)
Theorem normalize_audio_bounded (y : signal) :
  y <> [] -> all_finite y ->
  exists d z,
    normalize_audio y = Ok z
    /\ z = np_divide y d
    /\ (0 <? d)%float = true
    /\ List.length z = List.length y
    /\ Forall (fun q => is_finite q = true
                        /\ (abs q <=? 1)%float = true
                        /\ (abs q <=? 1 + eps)%float = true) z
    /\ (all_zero y -> all_zero z).
Proof.
  intros Hne Hfin.
  destruct (normalize_audio_finite y Hne Hfin) as (peak & E & _ & Hd & Hle).
  exists (peak + eps)%float, (np_divide y (peak + eps)%float).
  split; [exact E |]. split; [reflexivity |].
  split; [apply positive_ltb; exact Hd |]. split; [apply length_map |].
  destruct (quotients_bounded y _ Hfin Hd Hle) as [Hb _].
  split.
  - eapply Forall_impl; [| exact Hb]. intros q [Hf H1].
    split; [exact Hf |]. split; [exact H1 |].
    eapply leb_trans; [exact H1 | reflexivity].
  - intros Hz. apply quotients_zero; assumption.
Qed.

Lemma normalize_audio_bounded_witness :
  exists d z,
    normalize_audio [1%float; (-3)%float] = Ok z
    /\ z = np_divide [1%float; (-3)%float] d
    /\ (0 <? d)%float = true
    /\ List.length z = List.length [1%float; (-3)%float]
    /\ Forall (fun q => is_finite q = true
                        /\ (abs q <=? 1)%float = true
                        /\ (abs q <=? 1 + eps)%float = true) z
    /\ (all_zero [1%float; (-3)%float] -> all_zero z).
Proof.
  apply (normalize_audio_bounded [1%float; (-3)%float]).
  - discriminate.
  - exact two_samples_finite.
Defined.

(** C4 as stated fails twice: the empty signal, which is all-zero, makes
    [normalize_audio] raise; and a signal with an infinite sample is
    turned into a NaN, since the divisor is infinite too. *)
Lemma normalize_audio_nan_or_raise :
  all_zero []
  /\ raised (normalize_audio [])
  /\ normalize_audio [infinity] = Ok [nan]
  /\ is_nan nan = true.
Proof.
  split; [constructor |]. split; [eexists; reflexivity |]. split; reflexivity.
Qed.

(** *** One positive divisor for all samples *)

(** C10, amended. For every signal that is not empty and whose samples
    are all finite, [normalize_audio] divides every sample by one and the
    same strictly positive double [peak + 1e-8]; the result has the length
    of the input and every sample keeps its sign bit. Each quotient is
    rounded on its own, so the result is not in general an exact multiple
    of the input. *)
Theorem normalize_audio_scales (y : signal) :
  y <> [] -> all_finite y ->
  exists peak z,
    is_peak peak y
    /\ (0 <? peak + eps)%float = true
    /\ normalize_audio y = Ok z
    /\ z = map (fun s => (s / (peak + eps))%float) y
    /\ List.length z = List.length y
    /\ Forall2 (fun s q => sign_bit q = sign_bit s) y z.
Proof.
  intros Hne Hfin.
  destruct (normalize_audio_finite y Hne Hfin) as (peak & E & Hp & Hd & Hle).
  exists peak, (np_divide y (peak + eps)%float).
  split; [exact Hp |]. split; [apply positive_ltb; exact Hd |].
  split; [exact E |]. split; [reflexivity |]. split; [apply length_map |].
  apply (quotients_bounded y _ Hfin Hd Hle).
Qed.

Lemma normalize_audio_scales_witness :
  exists peak z,
    is_peak peak [1%float; (-3)%float]
    /\ (0 <? peak + eps)%float = true
    /\ normalize_audio [1%float; (-3)%float] = Ok z
    /\ z = map (fun s => (s / (peak + eps))%float) [1%float; (-3)%float]
    /\ List.length z = List.length [1%float; (-3)%float]
    /\ Forall2 (fun s q => sign_bit q = sign_bit s) [1%float; (-3)%float] z.
Proof.
  apply (normalize_audio_scales [1%float; (-3)%float]).
  - discriminate.
  - exact two_samples_finite.
Defined.

(** C10 as stated fails. The empty signal has no result at all. For
    [[1.0; 3.0]] no constant [c] relates the result to the input, neither
    on exact values nor with the multiplication of doubles. For
    [[2^-1074; 4.0]] the first quotient underflows: a positive sample
    becomes a zero. For [[inf]] the result is a NaN. *)
Lemma normalize_audio_not_scalar_multiple :
  raised (normalize_audio [])
  /\ (exists out, normalize_audio [1%float; 3%float] = Ok out
        /\ (forall c : Q, ~ scalar_multiple c [1%float; 3%float] out)
        /\ (forall c : float,
              map (fun s => (c * s)%float) [1%float; 3%float] <> out))
  /\ (exists q1 q2, normalize_audio [tiny; 4%float] = Ok [q1; q2]
        /\ (0 <? tiny)%float = true /\ (0 <? q1)%float = false)
  /\ (exists q, normalize_audio [infinity] = Ok [q] /\ is_nan q = true).
Proof.
  split; [eexists; reflexivity |]. split; [| split].
  - eexists. split; [vm_compute; reflexivity |]. split.
    + intros c H.
      eapply scalar_multiple_cross in H; try (vm_compute; reflexivity).
      vm_compute in H. discriminate H.
    + intros c H. simpl in H. rewrite mul_one in H.
      pose proof (f_equal (fun l => nth 0 l 0%float) H) as H0.
      pose proof (f_equal (fun l => nth 1 l 0%float) H) as H1.
      simpl in H0, H1. subst c.
      apply (f_equal (fun x => (x =? 3 / (3 + eps))%float)) in H1.
      vm_compute in H1. discriminate H1.
  - do 2 eexists. split; [vm_compute; reflexivity |]. split; reflexivity.
  - exists nan. split; reflexivity.
Qed.

(** ** End to end *)

(** A silent second, loaded for two seconds, comes back as twice as many
    zeros, and normalising them gives the same zeros again (at 8 Hz, to
    keep the lists short). *)
Example silent_second_end_to_end :
  load_audio (passthrough_backend (Ok (repeat zero 8))) (init 8)
    "silence.wav" default_duration
  = Ok (repeat zero 16)
  /\ normalize_audio (repeat zero 16) = Ok (repeat zero 16).
Proof. split; vm_compute; reflexivity. Qed.

(** * Further properties *)

(** ** [normalize_audio] at the edges *)

Lemma normalize_audio_nonempty (y : signal) :
  y <> [] ->
  exists peak, np_max (np_abs y) = Ok peak
    /\ normalize_audio y = Ok (np_divide y (peak + eps)%float).
Proof.
  intros Hne. destruct (np_max_abs y Hne) as (peak & E & _).
  exists peak. split; [exact E |]. unfold normalize_audio. rewrite E. reflexivity.
Qed.

(** X1. [normalize_audio] raises on the empty signal and on no other: a
    NaN, an infinity or a zero divisor never raise on an ndarray. What it
    raises is a [ValueError], and what it returns has the length of its
    input. *)
Theorem normalize_audio_raises_iff_empty (y : signal) :
  (raised (normalize_audio y) <-> y = [])
  /\ (forall e, normalize_audio y = Raise e -> class_of e = ValueError)
  /\ (forall z, normalize_audio y = Ok z -> List.length z = List.length y).
Proof.
  destruct y as [| x xs].
  - split; [| split].
    + split; [reflexivity | intros _; eexists; reflexivity].
    + intros e H. apply (f_equal (fun r => match r with
                                           | Raise e' => class_of e'
                                           | Ok _ => ValueError
                                           end)) in H.
      simpl in H. symmetry. exact H.
    + intros z H. discriminate H.
  - destruct (normalize_audio_nonempty (x :: xs)) as (peak & _ & E);
      [discriminate |].
    rewrite E. split; [| split].
    + split; [intros [e H]; discriminate H | discriminate].
    + intros e H. discriminate H.
    + intros z H.
      assert (Ez : z = np_divide (x :: xs) (peak + eps)%float).
      { apply (f_equal (fun r => match r with Ok a => a | Raise _ => z end)) in H.
        symmetry. exact H. }
      rewrite Ez. apply length_map.
Qed.

Lemma add_nan_l (a b : float) : is_nan a = true -> is_nan (a + b) = true.
Proof.
  rewrite !is_nan_SF, add_spec. intros ->. reflexivity.
Qed.

Lemma div_nan_r (s d : float) : is_nan d = true -> is_nan (s / d) = true.
Proof.
  rewrite !is_nan_SF, div_spec. intros ->. destruct (Prim2SF s); reflexivity.
Qed.

(** X2. One NaN sample is enough to turn every sample of the result into
    a NaN: the peak is a NaN, and so are the divisor and all quotients. *)
Theorem nan_sample_poisons (y : signal) (s : float) :
  In s y -> is_nan s = true ->
  exists z, normalize_audio y = Ok z
    /\ List.length z = List.length y
    /\ Forall (fun q => is_nan q = true) z.
Proof.
  intros Hin Hs.
  assert (Hne : y <> []) by (intros ->; exact Hin).
  destruct (np_max_abs y Hne) as (peak & E & _ & Hnan).
  exists (np_divide y (peak + eps)%float).
  split; [unfold normalize_audio; rewrite E; reflexivity |].
  split; [apply length_map |].
  assert (Hd : is_nan (peak + eps) = true).
  { apply add_nan_l. apply Hnan. exists s. split; assumption. }
  unfold np_divide. apply Forall_map. apply Forall_forall.
  intros t _. apply div_nan_r. exact Hd.
Qed.

Lemma nan_sample_poisons_witness :
  exists z, normalize_audio [1%float; nan] = Ok z
    /\ List.length z = List.length [1%float; nan]
    /\ Forall (fun q => is_nan q = true) z.
Proof.
  apply (nan_sample_poisons [1%float; nan] nan).
  - simpl. right. left. reflexivity.
  - reflexivity.
Defined.

(** *** An infinite sample *)

Lemma abs_shape (s : float) :
  match Prim2SF (abs s) with
  | S754_zero sg | S754_infinity sg | S754_finite sg _ _ => sg = false
  | S754_nan => True
  end.
Proof. rewrite abs_spec. destruct (Prim2SF s); simpl; auto. Qed.

Lemma peak_infinite (y : signal) (peak s : float) :
  is_peak peak y -> In s y -> is_infinity s = true ->
  Prim2SF peak = S754_infinity false.
Proof.
  intros [Hin Hub] Hs Hinf.
  specialize (Hub s Hs). apply leb_key in Hub. destruct Hub as (_ & Hn & Hle).
  apply is_infinity_SF in Hinf. destruct Hinf as [sg Es].
  rewrite abs_spec, Es in Hle. simpl in Hle.
  apply in_map_iff in Hin. destruct Hin as (s0 & <- & _).
  pose proof (abs_shape s0) as Hsh. unfold not_nan in Hn.
  destruct (Prim2SF (abs s0)) as [sg0 | sg0 | | sg0 m0 e0]; simpl in *;
    try congruence; subst; lia.
Qed.

(** X3. With an infinite sample and no NaN, the divisor is [+inf]: every
    finite sample becomes a zero that keeps its sign bit, and every
    infinite sample becomes a NaN. *)
Theorem infinite_sample_flattens (y : signal) (s : float) :
  In s y -> is_infinity s = true ->
  (forall t, In t y -> is_nan t = false) ->
  exists z, normalize_audio y = Ok z
    /\ Forall2 (fun t q =>
                  (is_finite t = true ->
                   is_zero q = true /\ sign_bit q = sign_bit t)
                  /\ (is_infinity t = true -> is_nan q = true)) y z.
Proof.
  intros Hin Hinf Hnan.
  assert (Hne : y <> []) by (intros ->; exact Hin).
  destruct (np_max_abs y Hne) as (peak & E & Hpeak & _).
  pose proof (peak_infinite y peak s (Hpeak Hnan) Hin Hinf) as Ep.
  assert (Ed : Prim2SF (peak + eps) = S754_infinity false).
  { rewrite add_spec, Ep, Prim2SF_eps. reflexivity. }
  exists (np_divide y (peak + eps)%float).
  split; [unfold normalize_audio; rewrite E; reflexivity |].
  unfold np_divide. clear Hin Hne E Hpeak Hnan.
  induction y as [| t y IH]; simpl; constructor; [| exact IH].
  split.
  - intros Hf. apply is_finite_SF in Hf. unfold sign_bit.
    rewrite is_zero_SF, div_spec, Ed.
    destruct (Prim2SF t) as [st | st | | st mt et]; try contradiction;
      simpl; (split; [eexists; reflexivity | destruct st; reflexivity]).
  - intros Hi. apply is_infinity_SF in Hi. destruct Hi as [st Et].
    apply is_nan_SF. rewrite div_spec, Ed, Et. reflexivity.
Qed.

Lemma infinite_sample_flattens_witness :
  exists z, normalize_audio [(-3)%float; infinity] = Ok z
    /\ Forall2 (fun t q =>
                  (is_finite t = true ->
                   is_zero q = true /\ sign_bit q = sign_bit t)
                  /\ (is_infinity t = true -> is_nan q = true))
               [(-3)%float; infinity] z.
Proof.
  apply (infinite_sample_flattens [(-3)%float; infinity] infinity).
  - simpl. right. left. reflexivity.
  - reflexivity.
  - intros t [<- | [<- | []]]; reflexivity.
Defined.

(** *** Polarity *)

Lemma binary_round_aux_opp (s : bool) (m e : Z) (l : location) :
  binary_round_aux prec emax (negb s) m e l
  = SFopp (binary_round_aux prec emax s m e l).
Proof.
  unfold binary_round_aux.
  destruct (shr_fexp prec emax m e l) as [mrs' e'].
  destruct (shr_fexp prec emax _ e' loc_Exact) as [mrs'' e''].
  destruct (shr_m mrs''); try reflexivity.
  destruct (_ <=? _); reflexivity.
Qed.

Lemma SFdiv_opp (x d : spec_float) :
  SFdiv prec emax (SFopp x) d = SFopp (SFdiv prec emax x d).
Proof.
  destruct x as [sx | sx | | sx mx ex], d as [sd | sd | | sd md ed];
    try reflexivity; try (destruct sx, sd; reflexivity).
  unfold SFopp at 1. unfold SFdiv.
  destruct (SFdiv_core_binary prec emax (Zpos mx) ex (Zpos md) ed) as [[q e'] l].
  rewrite <- binary_round_aux_opp. f_equal. destruct sx, sd; reflexivity.
Qed.

Lemma abs_opp (s : float) : abs (- s) = abs s.
Proof.
  apply Prim2SF_inj. rewrite !abs_spec, opp_spec.
  destruct (Prim2SF s); reflexivity.
Qed.

Lemma div_opp (s d : float) : (- s / d)%float = (- (s / d))%float.
Proof.
  apply Prim2SF_inj. rewrite opp_spec, !div_spec, opp_spec. apply SFdiv_opp.
Qed.

(** X4. Normalisation commutes with a change of polarity: negating every
    sample of the input negates every sample of the result, bit for bit;
    on the empty signal both sides raise the same error. *)
Theorem normalize_audio_opp (y : signal) :
  normalize_audio (map opp y)
  = (z <- normalize_audio y ;; Ok (map opp z)).
Proof.
  assert (Eabs : np_abs (map opp y) = np_abs y).
  { unfold np_abs. rewrite map_map. apply map_ext. apply abs_opp. }
  unfold normalize_audio. rewrite Eabs.
  destruct (np_max (np_abs y)) as [peak | e]; simpl; [| reflexivity].
  f_equal. unfold np_divide. rewrite !map_map. apply map_ext.
  intros s. apply div_opp.
Qed.

(** *** The order of the samples *)

Lemma nan_unique (a b : float) : is_nan a = true -> is_nan b = true -> a = b.
Proof.
  rewrite !is_nan_SF. intros Ha Hb. apply Prim2SF_inj. congruence.
Qed.

Lemma abs_leb_antisym (s t : float) :
  (abs s <=? abs t)%float = true -> (abs t <=? abs s)%float = true ->
  abs s = abs t.
Proof.
  intros H1 H2. apply leb_key in H1, H2.
  destruct H1 as (Hs & Ht & H1). destruct H2 as (_ & _ & H2).
  apply Prim2SF_inj. unfold not_nan in *.
  pose proof (abs_shape s) as Ss. pose proof (abs_shape t) as St.
  destruct (Prim2SF (abs s)) as [ss | ss | | ss ms es];
    destruct (Prim2SF (abs t)) as [st | st | | st mt et];
    simpl in *; try congruence; subst; simpl in *; try lia.
  assert (es = et) by lia. assert (Zpos ms = Zpos mt) by lia. congruence.
Qed.

Lemma is_peak_unique (y : signal) (p q : float) :
  is_peak p y -> is_peak q y -> p = q.
Proof.
  intros [Hp Hpu] [Hq Hqu].
  apply in_map_iff in Hp, Hq.
  destruct Hp as (s & <- & Hs). destruct Hq as (t & <- & Ht).
  apply abs_leb_antisym; [apply Hqu | apply Hpu]; assumption.
Qed.

Lemma is_peak_permutation (y y' : signal) (p : float) :
  Permutation y y' -> is_peak p y -> is_peak p y'.
Proof.
  intros HP [Hin Hub]. split.
  - eapply Permutation_in; [apply Permutation_map; exact HP | exact Hin].
  - intros s Hs. apply Hub.
    eapply Permutation_in; [apply Permutation_sym; exact HP | exact Hs].
Qed.

Lemma np_max_abs_permutation (y y' : signal) (peak : float) :
  Permutation y y' -> np_max (np_abs y) = Ok peak ->
  np_max (np_abs y') = Ok peak.
Proof.
  intros HP E.
  assert (Hne : y <> []) by (intros ->; discriminate E).
  assert (Hne' : y' <> []).
  { intros ->. apply Permutation_sym, Permutation_nil in HP. contradiction. }
  destruct (np_max_abs y Hne) as (p & Ep & Hpk & Hnan).
  destruct (np_max_abs y' Hne') as (p' & Ep' & Hpk' & Hnan').
  rewrite Ep in E. rewrite Ep', <- E. f_equal.
  destruct (existsb is_nan y) eqn:Ex.
  - apply existsb_exists in Ex. destruct Ex as (s & Hs & Hn).
    apply nan_unique.
    + apply Hnan'. exists s. split; [| exact Hn].
      eapply Permutation_in; [exact HP | exact Hs].
    + apply Hnan. exists s. split; assumption.
  - assert (Hfree : forall s, In s y -> is_nan s = false).
    { intros s Hs. destruct (is_nan s) eqn:En; [| reflexivity].
      assert (existsb is_nan y = true)
        by (apply existsb_exists; exists s; split; assumption).
      congruence. }
    assert (Hfree' : forall s, In s y' -> is_nan s = false).
    { intros s Hs. apply Hfree.
      eapply Permutation_in; [apply Permutation_sym; exact HP | exact Hs]. }
    apply (is_peak_unique y').
    + apply Hpk'. exact Hfree'.
    + apply (is_peak_permutation y y'); [exact HP | apply Hpk; exact Hfree].
Qed.

(** X5. The divisor does not depend on the order of the samples: a
    signal and a rearrangement of it have the same peak, so both are
    normalised by dividing each sample by the same divisor, the peak plus
    1e-8, and the result of the one is the result of the other rearranged
    in the same way. *)
Theorem normalize_audio_permutation (y y' z : signal) :
  Permutation y y' -> normalize_audio y = Ok z ->
  exists peak,
    np_max (np_abs y) = Ok peak
    /\ np_max (np_abs y') = Ok peak
    /\ z = map (fun s => s / (peak + eps))%float y
    /\ normalize_audio y' = Ok (map (fun s => s / (peak + eps))%float y')
    /\ Permutation z (map (fun s => s / (peak + eps))%float y').
Proof.
  intros HP H. unfold normalize_audio in *.
  destruct (np_max (np_abs y)) as [peak | e] eqn:E; [| discriminate H].
  pose proof (np_max_abs_permutation y y' peak HP E) as E'.
  rewrite E'. simpl in *.
  assert (Ez : z = np_divide y (peak + eps)%float).
  { apply (f_equal (fun r => match r with Ok a => a | Raise _ => z end)) in H.
    symmetry. exact H. }
  exists peak. split; [reflexivity |]. split; [reflexivity |].
  split; [exact Ez |]. split; [reflexivity |].
  rewrite Ez. apply Permutation_map. exact HP.
Qed.

Lemma normalize_audio_permutation_witness :
  exists peak,
    np_max (np_abs [1%float; (-3)%float]) = Ok peak
    /\ np_max (np_abs [(-3)%float; 1%float]) = Ok peak
    /\ np_divide [1%float; (-3)%float] (3 + eps)%float
       = map (fun s => s / (peak + eps))%float [1%float; (-3)%float]
    /\ normalize_audio [(-3)%float; 1%float]
       = Ok (map (fun s => s / (peak + eps))%float [(-3)%float; 1%float])
    /\ Permutation (np_divide [1%float; (-3)%float] (3 + eps)%float)
         (map (fun s => s / (peak + eps))%float [(-3)%float; 1%float]).
Proof.
  apply (normalize_audio_permutation [1%float; (-3)%float]
           [(-3)%float; 1%float]).
  - apply perm_swap.
  - reflexivity.
Defined.

(** X6. Normalisation commutes with time reversal. *)
Theorem normalize_audio_rev (y : signal) :
  normalize_audio (rev y) = (z <- normalize_audio y ;; Ok (rev z)).
Proof.
  unfold normalize_audio.
  destruct (np_max (np_abs y)) as [peak | e] eqn:E.
  - rewrite (np_max_abs_permutation y (rev y) peak (Permutation_rev y) E).
    simpl. f_equal. unfold np_divide. apply map_rev.
  - destruct y as [| x xs]; [| discriminate E].
    simpl in *. injection E as <-. reflexivity.
Qed.

(** ** [load_audio] at the edges *)

Lemma pad_or_trim_len (y0 : signal) (t : Z) :
  0 <= t ->
  len (if len y0 <? t then (y0 ++ repeat zero (Z.to_nat (t - len y0)))%list
       else slice_to y0 t) = t.
Proof.
  intros Ht. destruct (len y0 <? t) eqn:Elt.
  - apply Z.ltb_lt in Elt. unfold len in *.
    rewrite length_app, repeat_length. lia.
  - apply Z.ltb_ge in Elt. unfold slice_to.
    replace (t <? 0) with false by (symmetry; apply Z.ltb_ge; lia).
    unfold len in *. rewrite length_firstn. lia.
Qed.


Section LoadEdges.

Variable B : DSPBackend.
Variable self : AudioPreprocessor.
Variable filepath : string.
Variable duration : float.

(** X7. A negative target length does not raise: [y[:target]] counts from
    the end, so [load_audio] returns the decoded signal without its last
    [-target] samples (nothing, when there are not that many) and never
    pads. *)
Theorem load_audio_negative_target (y0 : signal) (sr0 t : Z) :
  librosa_load B filepath (sr self) duration = Ok (y0, sr0) ->
  target_length self duration = Ok t ->
  t < 0 ->
  load_audio B self filepath duration
  = Ok (firstn (Z.to_nat (len y0 + t)) y0)
  /\ len (firstn (Z.to_nat (len y0 + t)) y0) = Z.max 0 (len y0 + t).
Proof.
  intros E Et Ht.
  assert (Hlen : 0 <= len y0) by (unfold len; lia).
  rewrite (load_audio_ok B self filepath duration y0 sr0 t E Et)
    by (unfold int64_max; lia).
  replace (len y0 <? t) with false by (symmetry; apply Z.ltb_ge; lia).
  unfold slice_to.
  replace (t <? 0) with true by (symmetry; apply Z.ltb_lt; lia).
  replace (Z.to_nat (Z.max 0 (len y0 + t))) with (Z.to_nat (len y0 + t)) by lia.
  split; [reflexivity |].
  unfold len in *. rewrite length_firstn. lia.
Qed.

(** X8. When the target length is 0, [load_audio] returns the empty
    signal, and [normalize_audio] then raises on it. *)
Theorem load_audio_zero_target (y0 : signal) (sr0 : Z) :
  librosa_load B filepath (sr self) duration = Ok (y0, sr0) ->
  target_length self duration = Ok 0 ->
  load_audio B self filepath duration = Ok []
  /\ (y <- load_audio B self filepath duration ;; normalize_audio y)
     = Raise (Exn ValueError
         "zero-size array to reduction operation maximum which has no identity").
Proof.
  intros E Et.
  assert (El : load_audio B self filepath duration = Ok []).
  { assert (Hlen : 0 <= len y0) by (unfold len; lia).
    rewrite (load_audio_ok B self filepath duration y0 sr0 0 E Et)
      by (unfold int64_max; lia).
    replace (len y0 <? 0) with false by (symmetry; apply Z.ltb_ge; lia).
    reflexivity. }
  split; [exact El |]. rewrite El. reflexivity.
Qed.


End LoadEdges.

Lemma load_audio_negative_target_witness :
  load_audio (passthrough_backend (Ok (repeat 1%float 6))) (init 4)
    "clip.wav" (-1)%float
  = Ok (firstn (Z.to_nat (len (repeat 1%float 6) + -4)) (repeat 1%float 6))
  /\ len (firstn (Z.to_nat (len (repeat 1%float 6) + -4)) (repeat 1%float 6))
     = Z.max 0 (len (repeat 1%float 6) + -4).
Proof.
  apply (load_audio_negative_target
           (passthrough_backend (Ok (repeat 1%float 6))) (init 4)
           "clip.wav" (-1)%float (repeat 1%float 6) 4 (-4)).
  - reflexivity.
  - vm_compute. reflexivity.
  - lia.
Defined.

Lemma load_audio_zero_target_witness :
  load_audio (passthrough_backend (Ok [1%float])) (init default_sr)
    "clip.wav" 0x1p-20%float = Ok []
  /\ (y <- load_audio (passthrough_backend (Ok [1%float])) (init default_sr)
            "clip.wav" 0x1p-20%float ;; normalize_audio y)
     = Raise (Exn ValueError
         "zero-size array to reduction operation maximum which has no identity").
Proof.
  apply (load_audio_zero_target (passthrough_backend (Ok [1%float]))
           (init default_sr) "clip.wav" 0x1p-20%float [1%float] default_sr).
  - reflexivity.
  - vm_compute. reflexivity.
Defined.


(** *** The default duration *)

Lemma Prim2SF_two : Prim2SF 2 = S754_finite false 4503599627370496 (-51).
Proof. reflexivity. Qed.

(** An integer below [2^53] converts without rounding. *)
Lemma binary_round_exact (p : positive) :
  Zpos p < 2 ^ 53 ->
  exists mz,
    binary_round prec emax false p 0
    = S754_finite false mz (Zpos (digits2_pos p) - 53)
    /\ Zpos mz = Zpos p * 2 ^ (53 - Zpos (digits2_pos p))
    /\ Zpos (digits2_pos mz) = 53.
Proof.
  intros Hp. set (D := Zpos (digits2_pos p)).
  assert (HD : 1 <= D <= 53).
  { split; [unfold D; lia |].
    apply (Zdigits2_le_pow (Zpos p) 53); lia. }
  unfold binary_round. rewrite fexp_64. fold D.
  replace (D + 0) with D by lia.
  assert (Ef : fexp64 D = D - 53) by (unfold fexp64; lia).
  rewrite Ef.
  destruct (shl_align_spec p 0 (D - 53)) as [Hmz Hez].
  destruct (shl_align p 0 (D - 53)) as [mz ez].
  simpl fst in Hmz. simpl snd in Hez.
  replace (Z.min 0 (D - 53)) with (D - 53) in * by lia.
  replace (0 - (D - 53)) with (53 - D) in Hmz by lia. subst ez.
  assert (Hdz : Zpos (digits2_pos mz) = 53).
  { change (Zpos (digits2_pos mz)) with (Zdigits2 (Zpos mz)).
    rewrite Hmz, Zdigits2_mul_pow by lia.
    change (Zdigits2 (Zpos p)) with D. lia. }
  exists mz. split; [| split; [exact Hmz | exact Hdz]].
  unfold binary_round_aux, shr_fexp. rewrite !fexp_64.
  change (Zdigits2 (Zpos mz)) with (Zpos (digits2_pos mz)). rewrite Hdz.
  replace (53 + (D - 53)) with D by lia. rewrite Ef, Z.sub_diag.
  cbn [shr shr_record_of_loc shr_m loc_of_shr_record round_nearest_even].
  change (Zdigits2 (Zpos mz)) with (Zpos (digits2_pos mz)). rewrite Hdz.
  replace (53 + (D - 53)) with D by lia. rewrite fexp_64, Ef, Z.sub_diag.
  cbn [shr shr_record_of_loc shr_m].
  change (emax - prec) with 971.
  replace (D - 53 <=? 971) with true by (symmetry; apply Z.leb_le; lia).
  reflexivity.
Qed.

(** Doubling a normal double shifts its exponent. *)
Lemma SFmul_two_normal (m : positive) (e : Z) :
  Zpos (digits2_pos m) = 53 -> -1075 <= e <= 970 ->
  SFmul prec emax (S754_finite false m e)
    (S754_finite false 4503599627370496 (-51))
  = S754_finite false m (e + 1).
Proof.
  intros Hd He. unfold SFmul. simpl xorb.
  unfold binary_round_aux, shr_fexp. rewrite !fexp_64.
  assert (Ed : Zdigits2 (Zpos (m * 4503599627370496)) + (e + -51) = 54 + e).
  { rewrite Pos2Z.inj_mul. change (Zpos 4503599627370496) with (2 ^ 52).
    rewrite Zdigits2_mul_pow by lia.
    change (Zdigits2 (Zpos m)) with (Zpos (digits2_pos m)). lia. }
  rewrite Ed.
  assert (Ef : fexp64 (54 + e) = e + 1) by (unfold fexp64; lia).
  rewrite Ef. replace (e + 1 - (e + -51)) with 52 by lia.
  rewrite Pos.mul_comm.
  cbn [shr shr_record_of_loc Pos.mul iter_pos shr_1 orb].
  cbn [shr_m loc_of_shr_record round_nearest_even Zdigits2].
  replace (e + -51 + 52) with (e + 1) by lia.
  rewrite Hd. replace (53 + (e + 1)) with (54 + e) by lia.
  rewrite fexp_64, Ef, Z.sub_diag. cbn [shr shr_record_of_loc shr_m].
  change (emax - prec) with 971.
  replace (e + 1 <=? 971) with true by (symmetry; apply Z.leb_le; lia).
  reflexivity.
Qed.

Lemma target_length_default (self : AudioPreprocessor) :
  0 <= sr self < 2 ^ 53 ->
  target_length self default_duration = Ok (2 * sr self).
Proof.
  intros Hsr. unfold target_length, int_mul_float.
  destruct (float_of_int (sr self)) as [f | e] eqn:Ef.
  - pose proof (float_of_int_spec _ f Ef) as Es. simpl bind.
    unfold py_int. rewrite mul_spec, Es. unfold default_duration.
    rewrite Prim2SF_two. unfold SF64mul.
    destruct (sr self) as [| p | p] eqn:En; try lia.
    + reflexivity.
    + simpl binary_normalize.
      destruct (binary_round_exact p ltac:(lia)) as (mz & -> & Hmz & Hdz).
      set (D := Zpos (digits2_pos p)) in *.
      assert (HD : 1 <= D <= 53).
      { split; [unfold D; lia |].
        apply (Zdigits2_le_pow (Zpos p) 53); lia. }
      rewrite SFmul_two_normal by (try exact Hdz; lia).
      unfold cond_Zopp. f_equal.
      destruct (Z.eq_dec D 53) as [E53 | N53].
      * rewrite E53 in *. change (2 ^ (53 - 53)) with 1 in Hmz.
        change (53 - 53 + 1) with 1. rewrite Z.shiftl_mul_pow2 by lia.
        change (2 ^ 1) with 2. lia.
      * replace (D - 53 + 1) with (- (52 - D)) by lia.
        rewrite Z.shiftl_opp_r, Z.shiftr_div_pow2 by lia.
        rewrite Hmz. replace (53 - D) with (1 + (52 - D)) by lia.
        rewrite pow2_sum by lia.
        pose proof (pow2_pos (52 - D) ltac:(lia)).
        rewrite Z.mul_assoc, Z.div_mul by lia. change (2 ^ 1) with 2. lia.
  - exfalso. unfold float_of_int in Ef.
    destruct (sr self) as [| p | p] eqn:En; try lia.
    + discriminate Ef.
    + simpl binary_normalize in Ef.
      destruct (binary_round_exact p ltac:(lia)) as (mz & Eb & _).
      rewrite Eb in Ef. discriminate Ef.
Qed.

(** X10. With the default duration 2.0 and a sample rate in [0, 2^53),
    the product [sr * 2.0] is exact: [load_audio] returns exactly [2 * sr]
    samples whenever the file decodes. *)
Theorem default_duration_length (B : DSPBackend) (self : AudioPreprocessor)
    (filepath : string) (y0 : signal) (sr0 : Z) :
  0 <= sr self < 2 ^ 53 ->
  librosa_load B filepath (sr self) default_duration = Ok (y0, sr0) ->
  exists y,
    load_audio B self filepath default_duration = Ok y
    /\ len y = 2 * sr self.
Proof.
  intros Hsr E. pose proof (target_length_default self Hsr) as Et.
  assert (Hlen : 0 <= len y0) by (unfold len; lia).
  rewrite (load_audio_ok B self filepath default_duration y0 sr0 _ E Et)
    by (unfold int64_max; lia).
  eexists. split; [reflexivity |]. apply pad_or_trim_len. lia.
Qed.

Lemma default_duration_length_witness :
  exists y,
    load_audio (passthrough_backend (Ok [1%float])) (init default_sr)
      "clip.wav" default_duration = Ok y
    /\ len y = 2 * sr (init default_sr).
Proof.
  apply (default_duration_length (passthrough_backend (Ok [1%float]))
           (init default_sr) "clip.wav" [1%float] default_sr).
  - vm_compute. split; [discriminate | reflexivity].
  - reflexivity.
Defined.

(** X11. [load_audio] never alters or reorders a decoded sample: what it
    returns is a prefix of the decoded signal, or the decoded signal
    followed by zeros only. *)
Theorem load_audio_prefix_or_padded (B : DSPBackend) (self : AudioPreprocessor)
    (filepath : string) (duration : float) (y : signal) :
  load_audio B self filepath duration = Ok y ->
  exists y0 sr0 k,
    librosa_load B filepath (sr self) duration = Ok (y0, sr0)
    /\ (y = firstn k y0 \/ y = (y0 ++ repeat zero k)%list).
Proof.
  intros H.
  destruct (librosa_load B filepath (sr self) duration) as [[y0 sr0] | c] eqn:E.
  - destruct (target_length self duration) as [t | c] eqn:Et.
    + destruct (Z_le_gt_dec (t - len y0) int64_max) as [Hw | Hw];
        [| rewrite (load_audio_pad_error B self filepath duration y0 sr0 t
                      E Et ltac:(lia)) in H; discriminate H].
      rewrite (load_audio_ok B self filepath duration y0 sr0 t E Et Hw) in H.
      apply (f_equal (fun r => match r with Ok a => a | Raise _ => y end)) in H.
      cbv beta iota in H. subst y. exists y0, sr0.
      destruct (len y0 <? t).
      * exists (Z.to_nat (t - len y0)). split; [reflexivity | right; reflexivity].
      * unfold slice_to. destruct (t <? 0); eexists;
          (split; [reflexivity | left; reflexivity]).
    + rewrite (load_audio_length_error B self filepath duration y0 sr0 c E Et)
        in H.
      discriminate H.
  - rewrite (load_audio_decode_error B self filepath duration c E) in H.
    discriminate H.
Qed.

Lemma load_audio_prefix_or_padded_witness :
  exists y0 sr0 k,
    librosa_load (passthrough_backend (Ok [1%float])) "clip.wav"
      (sr (init 1)) default_duration = Ok (y0, sr0)
    /\ ([1%float; zero] = firstn k y0
        \/ [1%float; zero] = (y0 ++ repeat zero k)%list).
Proof.
  apply (load_audio_prefix_or_padded (passthrough_backend (Ok [1%float]))
           (init 1) "clip.wav" default_duration [1%float; zero]).
  vm_compute. reflexivity.
Defined.

(** ** The rate in the dispatch *)

Section RateInDispatch.

Variable B : DSPBackend.
Variable self : AudioPreprocessor.

(** X12. With a backend that refuses a rate [<= 0], such a rate makes
    [apply_preprocessing] fail for ['time_stretch'] and
    ['time_then_pitch'], and for ['pitch_then_time'] once the pitch shift
    has succeeded (a failing pitch shift raises its own error first);
    ['none'] and ['pitch_shift'] never look at the rate. *)
Theorem nonpositive_rate_in_dispatch (y : signal) (rate : float) (steps : Z) :
  rejects_nonpositive_rate B ->
  (rate <=? 0)%float = true ->
  (exists msg, apply_preprocessing B self y "time_stretch" rate steps
               = Raise (Exn ParameterError msg))
  /\ (exists msg, apply_preprocessing B self y "time_then_pitch" rate steps
                  = Raise (Exn ParameterError msg))
  /\ (forall y', pitch_shift B self y steps = Ok y' ->
        exists msg, apply_preprocessing B self y "pitch_then_time" rate steps
                    = Raise (Exn ParameterError msg))
  /\ (forall e, pitch_shift B self y steps = Raise e ->
        apply_preprocessing B self y "pitch_then_time" rate steps = Raise e)
  /\ apply_preprocessing B self y "none" rate steps = Ok y
  /\ apply_preprocessing B self y "pitch_shift" rate steps
     = pitch_shift B self y steps.
Proof.
  intros HB Hrate.
  split; [| split; [| split; [| split; [| split]]]].
  - exact (HB y rate Hrate).
  - destruct (HB y rate Hrate) as [msg E]. exists msg.
    unfold apply_preprocessing, time_stretch. simpl. rewrite E. reflexivity.
  - intros y' E. destruct (HB y' rate Hrate) as [msg E']. exists msg.
    unfold apply_preprocessing. simpl. rewrite E. simpl. exact E'.
  - intros e E. unfold apply_preprocessing. simpl. rewrite E. reflexivity.
  - reflexivity.
  - reflexivity.
Qed.

End RateInDispatch.

Lemma nonpositive_rate_in_dispatch_witness :
  (exists msg, apply_preprocessing (passthrough_backend (Ok [])) (init default_sr)
                 [1%float] "time_stretch" 0 3
               = Raise (Exn ParameterError msg))
  /\ (exists msg, apply_preprocessing (passthrough_backend (Ok []))
                    (init default_sr) [1%float] "time_then_pitch" 0 3
                  = Raise (Exn ParameterError msg))
  /\ (forall y', pitch_shift (passthrough_backend (Ok [])) (init default_sr)
                   [1%float] 3 = Ok y' ->
        exists msg, apply_preprocessing (passthrough_backend (Ok []))
                      (init default_sr) [1%float] "pitch_then_time" 0 3
                    = Raise (Exn ParameterError msg))
  /\ (forall e, pitch_shift (passthrough_backend (Ok [])) (init default_sr)
                  [1%float] 3 = Raise e ->
        apply_preprocessing (passthrough_backend (Ok [])) (init default_sr)
          [1%float] "pitch_then_time" 0 3 = Raise e)
  /\ apply_preprocessing (passthrough_backend (Ok [])) (init default_sr)
       [1%float] "none" 0 3 = Ok [1%float]
  /\ apply_preprocessing (passthrough_backend (Ok [])) (init default_sr)
       [1%float] "pitch_shift" 0 3
     = pitch_shift (passthrough_backend (Ok [])) (init default_sr) [1%float] 3.
Proof.
  apply (nonpositive_rate_in_dispatch (passthrough_backend (Ok []))
           (init default_sr) [1%float] 0 3).
  - apply passthrough_rejects.
  - reflexivity.
Defined.
